(** * A from-scratch K-Means (Lloyd's algorithm), from the clustering notebook

    The notebook cell functions [cluster_centers], [closest], [new_centers]
    and [kMeans] are embedded as Rocq functions over lists of rows, twice.

    The rational model.  A number is either a rational ([Fin q]) or [NaN],
    the one special value the notebook's code produces by itself (the mean
    of an empty selection); arithmetic is exact.  It serves for what depends
    on the shape of the arrays, on the labels and on the control flow:
    which rows are returned, what is raised, how often the loop runs.
    [np.linalg.norm] takes a square root, which the rationals do not have,
    so a norm is carried as its square there: the order of two norms is the
    order of their squares, and [Delta > .001] is [Delta^2 > 1/1000000].

    The binary64 model (module [F64]).  The arrays of the notebook hold
    binary64 numbers and every operation rounds.  What depends on the
    computed numbers themselves (which center is nearest, what the mean
    is, whether [Delta] is 0) is stated over binary64 numbers. *)

From Stdlib Require Import List ZArith QArith Qfield Lia Lqa Bool Arith PeanoNat.
From Stdlib Require Import Setoid Morphisms Sorted.
From Stdlib Require Floats Uint63.
Import PrimFloat.
Import ListNotations.

(** ** Numbers: exact rationals and NaN *)

Inductive num : Type :=
| Fin (q : Q)
| NaN.

Definition lift2 (f : Q -> Q -> Q) (a b : num) : num :=
  match a, b with
  | Fin x, Fin y => Fin (f x y)
  | _, _ => NaN
  end.

Definition nadd : num -> num -> num := lift2 Qplus.
Definition nsub : num -> num -> num := lift2 Qminus.
Definition nmul : num -> num -> num := lift2 Qmult.

(** [x >= y] on numbers: false as soon as one side is NaN. *)
Definition ngeb (x y : num) : bool :=
  match x, y with
  | Fin a, Fin b => Qle_bool b a
  | _, _ => false
  end.

(** [x > y] on numbers: false as soon as one side is NaN. *)
Definition ngtb (x y : num) : bool :=
  match x, y with
  | Fin a, Fin b => negb (Qle_bool a b)
  | _, _ => false
  end.

(** Sum of a sequence of numbers; the empty sum is 0. *)
Definition nsum (l : list num) : num := fold_right nadd (Fin 0) l.

(** [ndarray.mean] of a one-dimensional sequence: sum over count, and the
    empty sequence gives 0/0, that is NaN. *)
Definition mean (l : list num) : num :=
  match l with
  | [] => NaN
  | _ :: _ =>
      match nsum l with
      | Fin s => Fin (s / inject_Z (Z.of_nat (length l)))
      | NaN => NaN
      end
  end.

(** Equality of numbers up to the value of the fraction. *)
Definition neq (a b : num) : Prop :=
  match a, b with
  | Fin x, Fin y => x == y
  | NaN, NaN => True
  | _, _ => False
  end.

Definition neqb (a b : num) : bool :=
  match a, b with
  | Fin x, Fin y => Qeq_bool x y
  | NaN, NaN => true
  | _, _ => false
  end.

(** ** Exceptions *)

Inductive exn : Type :=
| ValueError.

Inductive result (A : Type) : Type :=
| Ok (a : A)
| Raise (e : exn).

Arguments Ok {A} a.
Arguments Raise {A} e.

Definition bind {A B : Type} (r : result A) (k : A -> result B) : result B :=
  match r with
  | Ok a => k a
  | Raise e => Raise e
  end.

Notation "x <- r ;; k" := (bind r (fun x => k))
  (at level 61, r at next level, right associativity).

(** ** Arrays *)

Definition row : Type := list num.
Definition matrix : Type := list row.

(** Number of columns of a two-dimensional array, as held in its shape. *)
Definition ncols (A : matrix) : nat :=
  match A with
  | [] => 0%nat
  | r :: _ => length r
  end.

(** A rectangular array with [D] columns. *)
Definition has_cols (D : nat) (A : matrix) : Prop :=
  Forall (fun r => length r = D) A.

Definition column (d : nat) (A : matrix) : list num :=
  map (fun r => nth d r NaN) A.

(** Elementwise difference of two rows of the same length. *)
Definition vsub (a b : row) : row :=
  map (fun p => nsub (fst p) (snd p)) (combine a b).

(** Square of [np.linalg.norm] of a row. *)
Definition sqnorm (r : row) : num := nsum (map (fun v => nmul v v) r).

Definition sqdist (x c : row) : num := sqnorm (vsub x c).

(** [np.argmin] of a one-dimensional sequence: the first index of the
    minimum; a NaN counts as the minimum and stops the scan. *)
Fixpoint argmin_scan (mp : num) (min_ind i : nat) (l : list num) : nat :=
  match l with
  | [] => min_ind
  | x :: l' =>
      match mp with
      | NaN => min_ind
      | Fin _ =>
          if negb (ngeb x mp) then argmin_scan x i (S i) l'
          else argmin_scan mp min_ind (S i) l'
      end
  end.

Definition argmin (l : list num) : nat :=
  match l with
  | [] => 0%nat
  | x :: l' => argmin_scan x 0 1 l'
  end.

(** [np.argmin(A, axis=0)] of an array with [M] columns: one index per
    column; an array with no row raises. *)
Definition argmin_axis0 (M : nat) (A : matrix) : result (list nat) :=
  match A with
  | [] => Raise ValueError
  | _ :: _ => Ok (map (fun i => argmin (column i A)) (seq 0 M))
  end.

(** [np.unique]: the sorted distinct entries. *)
Fixpoint insert_unique (k : nat) (l : list nat) : list nat :=
  match l with
  | [] => [k]
  | h :: t =>
      if k <? h then k :: l
      else if k =? h then l
      else h :: insert_unique k t
  end.

Definition np_unique (c : list nat) : list nat :=
  fold_right insert_unique [] c.

(** [X[mask]] for a boolean mask over the rows. *)
Definition bool_index {A : Type} (X : list A) (mask : list bool) : list A :=
  map fst (filter snd (combine X mask)).

(** [c == k], elementwise. *)
Definition eq_mask (c : list nat) (k : nat) : list bool :=
  map (fun ci => ci =? k) c.

(** [A.mean(axis=0)] for an array of shape (n, D): the mean of each column. *)
Definition mean_axis0 (D : nat) (A : matrix) : row :=
  map (fun d => mean (column d A)) (seq 0 D).

(** [X[idx]] for a sequence of row indices. *)
Definition take_rows (X : matrix) (idx : list nat) : matrix :=
  map (fun i => nth i X []) idx.

(** ** The random source

    [np.random.choice(M, size=K)] draws [K] indices from [range(M)],
    independently and with replacement.  The generator is process-wide
    state; its raw draws are the argument [rng], draw [i] being brought into
    [range(M)].  A negative size raises, and so does an empty population
    when a sample is asked for. *)
Definition np_random_choice (rng : nat -> nat) (M : nat) (K : Z)
  : result (list nat) :=
  if (K <? 0)%Z then Raise ValueError
  else if ((M =? 0)%nat && (0 <? K)%Z)%bool then Raise ValueError
  else Ok (map (fun i => (rng i) mod M) (seq 0 (Z.to_nat K))).

(** ** Step 1: random initial centers *)

Definition cluster_centers (rng : nat -> nat) (X : matrix) (K : Z)
  : result matrix :=
  idx <- np_random_choice rng (length X) K ;;
  Ok (take_rows X idx).

(** ** Step 2: nearest center of every point *)

(** [distances] has one row per center and one column per point. *)
Definition distances (X centers : matrix) : matrix :=
  map (fun c => map (fun x => sqdist x c) X) centers.

Definition closest (X centers : matrix) : result (list nat) :=
  argmin_axis0 (length X) (distances X centers).

(** ** Step 3: update of the centers *)

Definition new_centers (X centers : matrix) : result matrix :=
  c <- closest X centers ;;
  let K := length (np_unique c) in
  Ok (map (fun k => mean_axis0 (ncols X) (bool_index X (eq_mask c k)))
          (seq 0 K)).

(** ** Step 4: the iteration *)

(** [moved - centers]: rows are paired one to one when the two arrays have
    as many rows; an array of one row is broadcast over the other; any
    other pair of shapes raises. *)
Definition broadcast_rows (A B : matrix) : result (list (row * row)) :=
  if (length A =? length B)%nat then Ok (combine A B)
  else if (length A =? 1)%nat then Ok (map (fun b => (hd [] A, b)) B)
  else if (length B =? 1)%nat then Ok (map (fun a => (a, hd [] B)) A)
  else Raise ValueError.

(** Square of [np.linalg.norm(moved - centers)] (Frobenius norm). *)
Definition Delta2 (moved centers : matrix) : result num :=
  ps <- broadcast_rows moved centers ;;
  Ok (nsum (map (fun p => sqdist (fst p) (snd p)) ps)).

(** Square of the tolerance [.001]. *)
Definition tol2 : Q := 1 # 1000000.

Record loop_state : Type := mk_state {
  st_centers : matrix;
  st_iteration : Z;
  st_Delta2 : num
}.

(** [Delta > .001 and iteration < max_iter] *)
Definition loop_cond (max_iter : Z) (st : loop_state) : bool :=
  ngtb (st_Delta2 st) (Fin tol2) && (st_iteration st <? max_iter)%Z.

Definition loop_body (X : matrix) (st : loop_state) : result loop_state :=
  moved <- new_centers X (st_centers st) ;;
  d <- Delta2 moved (st_centers st) ;;
  Ok (mk_state moved (st_iteration st + 1) d).

(** The while loop.  [fuel] bounds the number of evaluations of the loop
    condition ([None]: fuel exhausted); [calls] counts the calls to
    [new_centers] made so far, and is returned with the outcome. *)
Fixpoint while_loop (fuel : nat) (X : matrix) (max_iter : Z)
    (st : loop_state) (calls : nat) : option (nat * result loop_state) :=
  match fuel with
  | O => None
  | S fuel' =>
      if loop_cond max_iter st then
        match loop_body X st with
        | Ok st' => while_loop fuel' X max_iter st' (S calls)
        | Raise e => Some (S calls, Raise e)
        end
      else Some (calls, Ok st)
  end.

(** What a call of [kMeans] that returns normally leaves behind: the number
    it printed, and the pair it returned. *)
Record kmeans_out : Type := mk_out {
  printed : Z;
  returned : matrix * list nat
}.

Definition kMeans_fuel (fuel : nat) (rng : nat -> nat) (X : matrix) (K : Z)
    (max_iter : Z) : option (nat * result kmeans_out) :=
  match np_random_choice rng (length X) K with
  | Raise e => Some (0%nat, Raise e)
  | Ok idx =>
      let centers := take_rows X idx in
      match while_loop fuel X max_iter (mk_state centers 0 (Fin 1)) 0 with
      | None => None
      | Some (calls, Raise e) => Some (calls, Raise e)
      | Some (calls, Ok st) =>
          Some (calls,
                labels <- closest X (st_centers st) ;;
                Ok (mk_out (st_iteration st) (st_centers st, labels)))
      end
  end.

(** The loop checks its condition at most [max_iter + 1] times (see
    [while_loop_halts] below), so this much fuel is never exhausted. *)
Definition kMeans (rng : nat -> nat) (X : matrix) (K : Z) (max_iter : Z)
  : option (nat * result kmeans_out) :=
  kMeans_fuel (S (Z.to_nat max_iter)) rng X K max_iter.

(** Datasets of rational points, as arrays. *)
Definition inj_row (r : list Q) : row := map Fin r.
Definition inj (A : list (list Q)) : matrix := map inj_row A.


(** ** Measures used to state the properties

    These are not notebook code: they are the quantities the properties
    below are stated with, over the rational points of a dataset. *)

Definition Qsum (l : list Q) : Q := fold_right Qplus 0 l.

(** Squared Euclidean distance of two rational points. *)
Definition Qsqdist (x c : list Q) : Q :=
  Qsum (map (fun p => (fst p - snd p) * (fst p - snd p)) (combine x c)).

(** Indices of the points that carry label [k]. *)
Definition members (c : list nat) (k : nat) : list nat :=
  filter (fun i => nth i c 0%nat =? k) (seq 0 (length c)).

(** Coordinate [d] of the arithmetic mean of the points labelled [k]. *)
Definition cluster_mean (XQ : list (list Q)) (c : list nat) (k d : nat) : Q :=
  Qsum (map (fun i => nth d (nth i XQ []) 0) (members c k))
  / inject_Z (Z.of_nat (length (members c k))).

(** Every label below [K] occurs in [c] (all [K] clusters are non-empty). *)
Definition populated (K : nat) (c : list nat) : Prop :=
  forall k, (k < K)%nat -> In k c.

(** A row of [D] NaNs. *)
Definition nan_row (D : nat) : row := repeat NaN D.

(** The column means of a non-empty selection of rational rows. *)
Definition Qmean_axis0 (D : nat) (A : list (list Q)) : list Q :=
  map (fun d => Qsum (map (fun r => nth d r 0) A)
                / inject_Z (Z.of_nat (length A))) (seq 0 D).


(** Arrays that agree up to the value of their fractions. *)
Definition row_eq (a b : row) : Prop := Forall2 neq a b.
Definition matrix_eq (A B : matrix) : Prop := Forall2 row_eq A B.

Definition row_eqb (a b : row) : bool :=
  (length a =? length b)%nat
  && forallb (fun p => neqb (fst p) (snd p)) (combine a b).

Definition matrix_eqb (A B : result matrix) : bool :=
  match A, B with
  | Ok a, Ok b =>
      (length a =? length b)%nat
      && forallb (fun p => row_eqb (fst p) (snd p)) (combine a b)
  | Raise e, Raise e' => true
  | _, _ => false
  end.

(** Example data. *)
Definition X3 : matrix := inj [[0]; [1]; [2]].
Definition X_gap : matrix := inj [[0]; [1]; [10]].
Definition C_gap : matrix := inj [[0]; [5]; [10]].

(** The hand-built example: four points in two columns of two. *)
Definition X_four : list (list Q) := [[0; 0]; [0; 2]; [10; 0]; [10; 2]].
Definition C_four : matrix := inj [[0; 0]; [10; 0]].

(** A rational point moved by the vector [t]. *)
Definition Qtranslate (t x : list Q) : list Q :=
  map (fun p => fst p + snd p) (combine x t).

(** ** The supervised-learning notebook: the two-class subset

    [X = np.vstack((MNIST[MNISTlabels==0], MNIST[MNISTlabels==1]))] and
    [y = np.hstack((MNISTlabels[MNISTlabels==0], MNISTlabels[MNISTlabels==1]))]:
    the rows labelled 0 followed by the rows labelled 1, and their labels in
    the same order. *)
Definition two_classes {A : Type} (data : list A) (labels : list nat)
  : list A * list nat :=
  (bool_index data (eq_mask labels 0) ++ bool_index data (eq_mask labels 1),
   bool_index labels (eq_mask labels 0)
   ++ bool_index labels (eq_mask labels 1)).

(** [np.sum] of a boolean array: the number of [True] entries. *)
Definition np_sum_bool (mask : list bool) : nat :=
  length (filter (fun b => b) mask).

(** [num_zeros = np.sum(y==0)] *)
Definition num_zeros (y : list nat) : nat := np_sum_bool (eq_mask y 0).

(** ** The same functions over binary64 numbers

    The rational model above serves for what depends on the shape of the
    arrays, on the labels and on the control flow.  The notebook's arrays hold
    binary64 numbers, and every operation on them rounds; where a property
    depends on that, the functions are taken here over the binary64 numbers
    themselves, with numpy's shape checks.  The norm is the square root of
    the sum of the squares, as [np.linalg.norm] computes it. *)

Module F64.

Definition float : Set := PrimFloat.float.
Definition row : Type := list float.
Definition matrix : Type := list row.

Definition nan : float := PrimFloat.nan.

(** The integer [n] as a binary64 number (for counts, below 2^53). *)
Definition of_nat (n : nat) : float :=
  PrimFloat.of_uint63 (Uint63.of_Z (Z.of_nat n)).

Definition ncols (A : matrix) : nat :=
  match A with
  | [] => 0%nat
  | r :: _ => length r
  end.

Definition has_cols (D : nat) (A : matrix) : Prop :=
  Forall (fun r => length r = D) A.

Definition column (d : nat) (A : matrix) : list float :=
  map (fun r => nth d r nan) A.

Fixpoint mapM {A B : Type} (f : A -> result B) (l : list A)
  : result (list B) :=
  match l with
  | [] => Ok []
  | a :: l' => b <- f a ;; bs <- mapM f l' ;; Ok (b :: bs)
  end.

(** [a - b] for two rows: entry by entry when they have as many entries; a
    row of one entry is broadcast over the other; other lengths raise. *)
Definition sub_rows (a b : row) : result row :=
  if (length a =? length b)%nat then
    Ok (map (fun p => PrimFloat.sub (fst p) (snd p)) (combine a b))
  else
    match a, b with
    | [x], _ => Ok (map (fun y => PrimFloat.sub x y) b)
    | _, [y] => Ok (map (fun x => PrimFloat.sub x y) a)
    | _, _ => Raise ValueError
    end.

(** The sum of a sequence in index order.  This is the order in which numpy
    adds the entries of a reduction of fewer than eight addends. *)
Definition add_in_order (l : list float) : float :=
  match l with
  | [] => PrimFloat.zero
  | a :: l' => fold_left PrimFloat.add l' a
  end.

(** The three reductions numpy performs for the notebook's code.  Each adds
    binary64 numbers and rounds after every addition, so its result depends
    on the order of the additions; that order (in blocks along a contiguous
    axis, row after row along the first axis, the linear-algebra library's
    own in a dot product) is numpy's choice and not written in the
    notebook.  The functions below take the reductions as given:
    - [add_reduce] is [np.add.reduce(s, axis=2)] inside
      [np.linalg.norm(..., axis=2)], applied to the squares of one row of
      differences;
    - [add_reduce0] is the sum inside [mean(axis=0)], applied to one column
      of the selected rows;
    - [dot] is [x.dot(x)] inside [np.linalg.norm] of a whole array. *)
Record reductions : Type := {
  add_reduce : list float -> float;
  add_reduce0 : list float -> float;
  dot : list float -> list float -> float
}.

(** The reductions in index order, every product rounded before it is
    added; used for the examples, whose reductions have at most three
    addends. *)
Definition in_order : reductions := {|
  add_reduce := add_in_order;
  add_reduce0 := add_in_order;
  dot := fun x y =>
    add_in_order (map (fun p => PrimFloat.mul (fst p) (snd p)) (combine x y))
|}.

(** [np.linalg.norm] of a row: [sqrt(add.reduce(x * x))]. *)
Definition norm (np : reductions) (r : row) : float :=
  PrimFloat.sqrt (add_reduce np (map (fun v => PrimFloat.mul v v) r)).

(** [np.argmin] of a one-dimensional sequence. *)
Fixpoint argmin_scan (mp : float) (min_ind i : nat) (l : list float) : nat :=
  match l with
  | [] => min_ind
  | x :: l' =>
      if PrimFloat.is_nan mp then min_ind
      else if negb (PrimFloat.leb mp x) then argmin_scan x i (S i) l'
      else argmin_scan mp min_ind (S i) l'
  end.

Definition argmin (l : list float) : nat :=
  match l with
  | [] => 0%nat
  | x :: l' => argmin_scan x 0 1 l'
  end.

Definition argmin_axis0 (M : nat) (A : matrix) : result (list nat) :=
  match A with
  | [] => Raise ValueError
  | _ :: _ => Ok (map (fun i => argmin (column i A)) (seq 0 M))
  end.

(** [ndarray.mean] of a one-dimensional sequence: the sum divided by the
    count. *)
Definition mean (np : reductions) (l : list float) : float :=
  PrimFloat.div (add_reduce0 np l) (of_nat (length l)).

Definition mean_axis0 (np : reductions) (D : nat) (A : matrix) : row :=
  map (fun d => mean np (column d A)) (seq 0 D).

(** The distance of a point to a center of the same dimension, as
    [closest] computes it. *)
Definition dist (np : reductions) (x c : row) : float :=
  norm np (map (fun p => PrimFloat.sub (fst p) (snd p)) (combine x c)).

(** One row per center, one column per point. *)
Definition distances (np : reductions) (X centers : matrix) : result matrix :=
  mapM (fun c => mapM (fun x => d <- sub_rows x c ;; Ok (norm np d)) X)
       centers.

Definition closest (np : reductions) (X centers : matrix)
  : result (list nat) :=
  dist <- distances np X centers ;;
  argmin_axis0 (length X) dist.

Definition new_centers (np : reductions) (X centers : matrix)
  : result matrix :=
  c <- closest np X centers ;;
  let K := length (np_unique c) in
  Ok (map (fun k => mean_axis0 np (ncols X) (bool_index X (eq_mask c k)))
          (seq 0 K)).

Definition broadcast_rows (A B : matrix) : result (list (row * row)) :=
  if (length A =? length B)%nat then Ok (combine A B)
  else if (length A =? 1)%nat then Ok (map (fun b => (hd [] A, b)) B)
  else if (length B =? 1)%nat then Ok (map (fun a => (a, hd [] B)) A)
  else Raise ValueError.

(** [np.linalg.norm(moved - centers)]: the entries of the difference are
    laid out in one sequence [x], and the norm is [sqrt(x.dot(x))]. *)
Definition Delta (np : reductions) (moved centers : matrix) : result float :=
  ps <- broadcast_rows moved centers ;;
  ds <- mapM (fun p => sub_rows (fst p) (snd p)) ps ;;
  Ok (PrimFloat.sqrt (dot np (concat ds) (concat ds))).

(** The rational number a finite binary64 number stands for. *)
Definition to_Q (x : float) : option Q :=
  match FloatOps.Prim2SF x with
  | SpecFloat.S754_zero _ => Some 0
  | SpecFloat.S754_finite s m e =>
      Some ((if s then inject_Z (Zneg m) else inject_Z (Zpos m))
            * Qpower 2 e)
  | _ => None
  end.

(** The exact values of the entries of an array of finite numbers. *)
Definition value (x : float) : Q :=
  match to_Q x with
  | Some q => q
  | None => 0
  end.

Definition values (X : matrix) : list (list Q) := map (map value) X.

Definition all_finite (X : matrix) : bool :=
  forallb (forallb PrimFloat.is_finite) X.

End F64.

(** Binary64 example data. *)
Definition F_tie_X : F64.matrix := [[0%float; 0%float]].
Definition F_tie_C : F64.matrix :=
  [[1%float; 0x1p-30%float]; [1%float; 0%float]].
Definition F_thirds_X : F64.matrix := [[3%float]; [4%float]; [4%float]].
Definition F_thirds_C : F64.matrix := [[0%float]].
Definition F_small_X : F64.matrix :=
  [[0x1p-500%float]; [(-0x1.0000000000002p-500)%float]; [0x1p-499%float]].
Definition F_small_C : F64.matrix := [[0%float]; [0x1p-499%float]].
Definition F_four_X : F64.matrix :=
  [[0%float; 0%float]; [0%float; 2%float]; [10%float; 0%float];
   [10%float; 2%float]].
Definition F_four_C : F64.matrix := [[0%float; 0%float]; [10%float; 0%float]].

(** * Properties *)

(** ** Lists *)

(** Turns the boolean comparisons of naturals in the context into
    propositions. *)
Ltac nat_bools :=
  repeat match goal with
    | H : (_ =? _)%nat = true |- _ => apply Nat.eqb_eq in H
    | H : (_ =? _)%nat = false |- _ => apply Nat.eqb_neq in H
    | H : (_ <=? _)%nat = true |- _ => apply Nat.leb_le in H
    | H : (_ <=? _)%nat = false |- _ => apply Nat.leb_gt in H
    | H : (_ <? _)%nat = true |- _ => apply Nat.ltb_lt in H
    | H : (_ <? _)%nat = false |- _ => apply Nat.ltb_ge in H
    end.

Lemma nth_map_lt {A B : Type} (f : A -> B) (l : list A) (d : A) (d' : B)
    (n : nat) :
  (n < length l)%nat -> nth n (map f l) d' = f (nth n l d).
Proof.
  intros Hn. rewrite (nth_indep _ d' (f d)) by now rewrite length_map.
  apply map_nth.
Qed.

Lemma map_nth_seq {A B : Type} (g : A -> B) (l : list A) (d : A) :
  map (fun i => g (nth i l d)) (seq 0 (length l)) = map g l.
Proof.
  apply nth_ext with (d := g d) (d' := g d).
  - now rewrite !length_map, length_seq.
  - intros n Hn. rewrite length_map, length_seq in Hn.
    rewrite (nth_map_lt _ _ 0%nat) by now rewrite length_seq.
    rewrite seq_nth by assumption. simpl.
    now rewrite (nth_map_lt _ _ d).
Qed.

(** ** Step 1 *)

Lemma np_random_choice_ok (rng : nat -> nat) (M : nat) (K : Z) :
  (0 <= K)%Z -> (M <> 0%nat \/ K = 0%Z) ->
  np_random_choice rng M K
  = Ok (map (fun i => (rng i) mod M) (seq 0 (Z.to_nat K))).
Proof.
  intros HK HM. unfold np_random_choice.
  destruct (K <? 0)%Z eqn:E; [apply Z.ltb_lt in E; lia|].
  destruct ((M =? 0)%nat && (0 <? K)%Z)%bool eqn:E2; [|reflexivity].
  apply andb_true_iff in E2. destruct E2 as [E2 E3].
  apply Nat.eqb_eq in E2. apply Z.ltb_lt in E3. lia.
Qed.

(** The raw draws do not restrict the outcome: any [K] indices below [M]
    are the outcome for some generator. *)
Lemma np_random_choice_any (M : nat) (idx : list nat) :
  Forall (fun i => (i < M)%nat) idx ->
  exists rng, np_random_choice rng M (Z.of_nat (length idx)) = Ok idx.
Proof.
  intros H. exists (fun i => nth i idx 0%nat).
  rewrite np_random_choice_ok.
  - rewrite Nat2Z.id. f_equal.
    apply nth_ext with (d := 0%nat) (d' := 0%nat).
    + now rewrite length_map, length_seq.
    + intros n Hn. rewrite length_map, length_seq in Hn.
      rewrite (nth_map_lt _ _ 0%nat) by now rewrite length_seq.
      rewrite seq_nth by assumption. simpl.
      apply Nat.mod_small.
      rewrite Forall_forall in H. apply H. now apply nth_In.
  - lia.
  - destruct idx as [|i0 idx']; [now right|left].
    inversion H; subst. lia.
Qed.

Lemma take_rows_In (X : matrix) (idx : list nat) :
  Forall (fun i => (i < length X)%nat) idx ->
  Forall (fun r => In r X) (take_rows X idx).
Proof.
  intros H. unfold take_rows. apply Forall_map.
  eapply Forall_impl; [|exact H]. intros i Hi. now apply nth_In.
Qed.

Lemma drawn_in_range (rng : nat -> nat) (M n : nat) :
  M <> 0%nat ->
  Forall (fun i => (i < M)%nat) (map (fun i => (rng i) mod M) (seq 0 n)).
Proof.
  intros HM. apply Forall_map, Forall_forall. intros i _.
  now apply Nat.mod_upper_bound.
Qed.

(** C8: for 1 <= K <= M and any random draws, [cluster_centers] returns
    exactly K rows, each of which is a row of the dataset. *)
Theorem cluster_centers_sample (rng : nat -> nat) (X : matrix) (K : Z) :
  (1 <= K <= Z.of_nat (length X))%Z ->
  exists cs, cluster_centers rng X K = Ok cs
             /\ Z.of_nat (length cs) = K
             /\ Forall (fun r => In r X) cs.
Proof.
  intros HK. unfold cluster_centers.
  rewrite np_random_choice_ok by lia. simpl.
  eexists. split; [reflexivity|]. split.
  - unfold take_rows. rewrite !length_map, length_seq. lia.
  - apply take_rows_In, drawn_in_range. lia.
Qed.

Lemma cluster_centers_sample_witness :
  exists cs, cluster_centers (fun i => i) X3 2 = Ok cs
             /\ Z.of_nat (length cs) = 2%Z
             /\ Forall (fun r => In r X3) cs.
Proof.
  apply (@cluster_centers_sample (fun i => i) X3 2). simpl. lia.
Defined.

(** C3 (as the code behaves): [cluster_centers] does not compare K with the
    number M of points.  It raises exactly when the random choice does, that
    is for K < 0, or for an empty dataset with K > 0; in every other case,
    K = 0 and K > M included, it returns exactly K rows of the dataset. *)
Theorem cluster_centers_no_validation (rng : nat -> nat) (X : matrix) (K : Z) :
  (cluster_centers rng X K = Raise ValueError
   <-> (K < 0)%Z \/ (length X = 0%nat /\ (0 < K)%Z))
  /\ ((0 <= K)%Z -> (length X <> 0%nat \/ K = 0%Z) ->
      exists cs, cluster_centers rng X K = Ok cs
                 /\ Z.of_nat (length cs) = K
                 /\ Forall (fun r => In r X) cs).
Proof.
  assert (Hok : (0 <= K)%Z -> (length X <> 0%nat \/ K = 0%Z) ->
      exists cs, cluster_centers rng X K = Ok cs
                 /\ Z.of_nat (length cs) = K
                 /\ Forall (fun r => In r X) cs).
  { intros HK HM. unfold cluster_centers.
    rewrite np_random_choice_ok by assumption. simpl.
    eexists. split; [reflexivity|]. split.
    - unfold take_rows. rewrite !length_map, length_seq. lia.
    - destruct HM as [HM | HM].
      + now apply take_rows_In, drawn_in_range.
      + subst K. simpl. constructor. }
  split; [|exact Hok]. split.
  - intros HR.
    destruct (Z_lt_dec K 0) as [|HK]; [now left|]. right.
    destruct (Nat.eq_dec (length X) 0) as [HM|HM].
    + split; [assumption|].
      destruct (Z.eq_dec K 0) as [->|]; [|lia].
      destruct Hok as [cs [Hcs _]]; [lia|now right|congruence].
    + destruct Hok as [cs [Hcs _]]; [lia|now left|congruence].
  - unfold cluster_centers, np_random_choice. intros [HK | [HM HK]].
    + apply Z.ltb_lt in HK. now rewrite HK.
    + rewrite HM. simpl.
      destruct (K <? 0)%Z; [reflexivity|].
      apply Z.ltb_lt in HK. now rewrite HK.
Qed.

Lemma cluster_centers_no_validation_witness :
  exists cs, cluster_centers (fun i => i) X3 5 = Ok cs
             /\ Z.of_nat (length cs) = 5%Z
             /\ Forall (fun r => In r X3) cs.
Proof.
  apply (proj2 (@cluster_centers_no_validation (fun i => i) X3 5)).
  - lia.
  - left. simpl. lia.
Defined.

(** C3 fails as stated: with M = 3 points, K = 5 > M and K = 0 < 1 are both
    accepted, and K rows come back. *)
Lemma cluster_centers_accepts_bad_K :
  (Z.of_nat (length X3) < 5)%Z
  /\ cluster_centers (fun i => i) X3 5
     = Ok (inj [[0]; [1]; [2]; [0]; [1]])
  /\ cluster_centers (fun i => i) X3 0 = Ok [].
Proof.
  split; [simpl; lia|]. split; reflexivity.
Qed.

(** ** Step 4: the loop *)

Section Loop.

Variable X : matrix.
Variable max_iter : Z.

Lemma loop_body_iteration (st st' : loop_state) :
  loop_body X st = Ok st' -> st_iteration st' = (st_iteration st + 1)%Z.
Proof.
  unfold loop_body. destruct (new_centers X (st_centers st)); simpl; [|discriminate].
  destruct (Delta2 a (st_centers st)); simpl; [|discriminate].
  intros H. injection H as <-. reflexivity.
Qed.

Lemma loop_cond_below (st : loop_state) :
  loop_cond max_iter st = true -> (st_iteration st < max_iter)%Z.
Proof.
  unfold loop_cond. intros H. apply andb_true_iff in H.
  now apply Z.ltb_lt.
Qed.

(** With more fuel than iterations left under the cap, the loop halts; every
    pass through the body made one call and added one to [iteration]. *)
Lemma while_loop_halts (fuel : nat) :
  forall (st : loop_state) (calls : nat),
    (Z.to_nat (max_iter - st_iteration st) < fuel)%nat ->
    exists calls' r,
      while_loop fuel X max_iter st calls = Some (calls', r)
      /\ (calls <= calls')%nat
      /\ (Z.of_nat (calls' - calls) <= Z.max 0 (max_iter - st_iteration st))%Z
      /\ (forall st', r = Ok st' ->
            st_iteration st' = (st_iteration st + Z.of_nat (calls' - calls))%Z).
Proof.
  induction fuel as [|fuel IH]; intros st calls Hfuel; [lia|].
  simpl. destruct (loop_cond max_iter st) eqn:Hc.
  - apply loop_cond_below in Hc.
    destruct (loop_body X st) as [st1|e] eqn:Hb.
    + pose proof (loop_body_iteration _ _ Hb) as Hit.
      destruct (IH st1 (S calls)) as (calls' & r & Hw & Hle & Hbound & Hok).
      { rewrite Hit. lia. }
      exists calls', r. rewrite Hit in *. repeat split; try assumption; try lia.
      intros st' Hr. rewrite (Hok st' Hr). lia.
    + exists (S calls), (Raise e). repeat split; try lia. discriminate.
  - exists calls, (Ok st). repeat split; try lia.
    intros st' H. injection H as <-. rewrite Nat.sub_diag. simpl. lia.
Qed.

Lemma while_loop_fuel_mono (fuel : nat) :
  forall (st : loop_state) (calls : nat) (out : nat * result loop_state)
         (fuel' : nat),
    while_loop fuel X max_iter st calls = Some out ->
    (fuel <= fuel')%nat ->
    while_loop fuel' X max_iter st calls = Some out.
Proof.
  induction fuel as [|fuel IH]; intros st calls out fuel' H Hle; [discriminate|].
  destruct fuel' as [|fuel']; [lia|]. simpl in *.
  destruct (loop_cond max_iter st); [|assumption].
  destruct (loop_body X st); [|assumption].
  apply IH; [assumption|lia].
Qed.

End Loop.

Lemma kMeans_fuel_enough (rng : nat -> nat) (X : matrix) (K max_iter : Z)
    (fuel : nat) :
  (Z.to_nat max_iter < fuel)%nat ->
  kMeans_fuel fuel rng X K max_iter = kMeans rng X K max_iter.
Proof.
  intros Hfuel. unfold kMeans, kMeans_fuel.
  destruct (np_random_choice rng (length X) K) as [idx|e]; [|reflexivity].
  destruct (while_loop_halts X max_iter (S (Z.to_nat max_iter))
              (mk_state (take_rows X idx) 0 (Fin 1)) 0)
    as (calls & r & Hw & _); [simpl; lia|].
  rewrite Hw.
  assert (Hw' : while_loop fuel X max_iter
                  (mk_state (take_rows X idx) 0 (Fin 1)) 0 = Some (calls, r))
    by (eapply while_loop_fuel_mono; [exact Hw | lia]).
  now rewrite Hw'.
Qed.

(** What a finished call of [kMeans] tells about its run. *)
Lemma kMeans_inv (rng : nat -> nat) (X : matrix) (K max_iter : Z) :
  exists calls r,
    kMeans rng X K max_iter = Some (calls, r)
    /\ (Z.of_nat calls <= Z.max 0 max_iter)%Z
    /\ (forall o, r = Ok o ->
          printed o = Z.of_nat calls
          /\ closest X (fst (returned o)) = Ok (snd (returned o))).
Proof.
  unfold kMeans, kMeans_fuel.
  destruct (np_random_choice rng (length X) K) as [idx|e].
  - destruct (while_loop_halts X max_iter (S (Z.to_nat max_iter))
                (mk_state (take_rows X idx) 0 (Fin 1)) 0)
      as (calls & r & Hw & _ & Hb & Hit); [simpl; lia|].
    rewrite Hw. simpl in Hb, Hit. rewrite Nat.sub_0_r, Z.sub_0_r in *.
    destruct r as [st|e].
    + exists calls. eexists. split; [reflexivity|]. split; [assumption|].
      intros o Ho. specialize (Hit st eq_refl).
      destruct (closest X (st_centers st)) as [labels|e] eqn:Hl;
        simpl in Ho; [|discriminate].
      injection Ho as <-. simpl. now split.
    + exists calls, (Raise e). split; [reflexivity|]. split; [assumption|].
      discriminate.
  - exists 0%nat, (Raise e). split; [reflexivity|]. split; [lia|discriminate].
Qed.

(** C6: for a positive cap, [kMeans] halts (whatever fuel above the cap the
    loop is given, with the same outcome), makes at most [max_iter] calls to
    [new_centers], and the iteration count it ends with, which it prints, is
    at most [max_iter]. *)
Theorem kMeans_halts_within_cap (rng : nat -> nat) (X : matrix)
    (K max_iter : Z) :
  (0 < max_iter)%Z ->
  exists calls r,
    kMeans rng X K max_iter = Some (calls, r)
    /\ (forall fuel, (Z.to_nat max_iter < fuel)%nat ->
          kMeans_fuel fuel rng X K max_iter = Some (calls, r))
    /\ (Z.of_nat calls <= max_iter)%Z
    /\ (forall o, r = Ok o ->
          printed o = Z.of_nat calls /\ (printed o <= max_iter)%Z).
Proof.
  intros Hpos.
  destruct (kMeans_inv rng X K max_iter) as (calls & r & Hk & Hc & Ho).
  exists calls, r. split; [assumption|]. split.
  - intros fuel Hfuel. now rewrite kMeans_fuel_enough.
  - split; [lia|]. intros o Hr. destruct (Ho o Hr) as [Hp _].
    split; [assumption|lia].
Qed.

Lemma kMeans_halts_within_cap_witness :
  exists calls r,
    kMeans (fun _ => 0%nat) X3 1 2 = Some (calls, r)
    /\ (forall fuel, (Z.to_nat 2 < fuel)%nat ->
          kMeans_fuel fuel (fun _ => 0%nat) X3 1 2 = Some (calls, r))
    /\ (Z.of_nat calls <= 2)%Z
    /\ (forall o, r = Ok o ->
          printed o = Z.of_nat calls /\ (printed o <= 2)%Z).
Proof.
  apply (@kMeans_halts_within_cap (fun _ => 0%nat) X3 1 2). lia.
Defined.

(** Two runs on the points 0, 1, 2 with K = 1 and a cap of 2: started from
    the point 0 the loop runs twice, started from the point 1 (the mean
    already) it runs once; both end on the same centers and labels. *)
Lemma kMeans_run_from_0 :
  kMeans (fun _ => 0%nat) X3 1 2
  = Some (2%nat, Ok (mk_out 2 ([[Fin (3 # 3)]], [0; 0; 0]%nat))).
Proof. reflexivity. Qed.

Lemma kMeans_run_from_1 :
  kMeans (fun _ => 1%nat) X3 1 2
  = Some (1%nat, Ok (mk_out 1 ([[Fin (3 # 3)]], [0; 0; 0]%nat))).
Proof. reflexivity. Qed.

(** The same point three times, K = 1: one pass through the loop, and the
    center is that point. *)
Example kMeans_constant_data :
  kMeans (fun i => i) (inj [[5]; [5]; [5]]) 1 10000
  = Some (1%nat, Ok (mk_out 1 ([[Fin (15 # 3)]], [0; 0; 0]%nat))).
Proof. vm_compute. reflexivity. Qed.

(** C1 fails as stated: the value returned is the pair (centers, labels);
    two runs with the same cap return the same value although one reached
    the cap (iteration 2 = max_iter) and the other did not (iteration 1). *)
Lemma kMeans_return_hides_iteration :
  exists o1 o2 : kmeans_out,
    kMeans (fun _ => 0%nat) X3 1 2 = Some (2%nat, Ok o1)
    /\ kMeans (fun _ => 1%nat) X3 1 2 = Some (1%nat, Ok o2)
    /\ returned o1 = returned o2
    /\ printed o1 = 2%Z /\ printed o2 = 1%Z.
Proof.
  do 2 eexists. split; [apply kMeans_run_from_0|].
  split; [apply kMeans_run_from_1|]. repeat split.
Qed.

(** C1 (as the code behaves): a call of [kMeans] that returns gives back the
    pair (centers, labels), the labels being [closest] of the returned
    centers; the iteration count equals the number of update calls and is
    printed, not returned, and the returned pair does not determine it. *)
Theorem kMeans_returns_pair :
  (forall rng X K max_iter calls o,
      kMeans rng X K max_iter = Some (calls, Ok o) ->
      closest X (fst (returned o)) = Ok (snd (returned o))
      /\ printed o = Z.of_nat calls)
  /\ (exists rng1 rng2 X K max_iter calls1 calls2 o1 o2,
        kMeans rng1 X K max_iter = Some (calls1, Ok o1)
        /\ kMeans rng2 X K max_iter = Some (calls2, Ok o2)
        /\ returned o1 = returned o2
        /\ printed o1 = max_iter /\ printed o2 <> max_iter).
Proof.
  split.
  - intros rng X K max_iter calls o Hk.
    destruct (kMeans_inv rng X K max_iter) as (calls' & r & Hk' & _ & Ho).
    rewrite Hk in Hk'. injection Hk' as -> <-.
    destruct (Ho o eq_refl). now split.
  - exists (fun _ => 0%nat), (fun _ => 1%nat), X3, 1%Z, 2%Z, 2%nat, 1%nat.
    do 2 eexists. split; [apply kMeans_run_from_0|].
    split; [apply kMeans_run_from_1|]. repeat split. discriminate.
Qed.

Lemma kMeans_returns_pair_witness :
  closest X3 (fst ([[Fin (3 # 3)]], [0; 0; 0]%nat))
  = Ok (snd ([[Fin (3 # 3)]], [0; 0; 0]%nat))
  /\ 2%Z = Z.of_nat 2.
Proof.
  apply (proj1 kMeans_returns_pair (fun _ => 0%nat) X3 1%Z 2%Z 2%nat
           (mk_out 2 ([[Fin (3 # 3)]], [0; 0; 0]%nat))).
  reflexivity.
Defined.

(** ** Numbers and rows of rational points *)

Lemma nsum_inj (qs : list Q) : nsum (map Fin qs) = Fin (Qsum qs).
Proof.
  induction qs as [|q qs IH]; [reflexivity|].
  change (nsum (map Fin (q :: qs))) with (nadd (Fin q) (nsum (map Fin qs))).
  now rewrite IH.
Qed.

Lemma nsum_cons (a : num) (l : list num) : nsum (a :: l) = nadd a (nsum l).
Proof. reflexivity. Qed.

Lemma sqdist_inj (x c : list Q) :
  sqdist (inj_row x) (inj_row c) = Fin (Qsqdist x c).
Proof.
  unfold sqdist, sqnorm, vsub, Qsqdist, inj_row.
  revert c. induction x as [|a x IH]; intros c; [reflexivity|].
  destruct c as [|b c]; [reflexivity|].
  cbn [map combine fst snd]. rewrite nsum_cons, IH. reflexivity.
Qed.

Lemma mean_inj (qs : list Q) :
  qs <> [] ->
  mean (map Fin qs) = Fin (Qsum qs / inject_Z (Z.of_nat (length qs))).
Proof.
  intros Hne. unfold mean. rewrite nsum_inj, length_map.
  destruct qs; [congruence|reflexivity].
Qed.

(** ** [np.argmin] *)

Lemma argmin_scan_range (l : list num) :
  forall (mp : num) (mi i : nat),
    argmin_scan mp mi i l = mi
    \/ (i <= argmin_scan mp mi i l < i + length l)%nat.
Proof.
  induction l as [|x l IH]; intros mp mi i; simpl; [now left|].
  destruct mp as [m|]; [|now left].
  destruct (negb (ngeb x (Fin m))).
  - destruct (IH x i (S i)) as [-> | H]; right; lia.
  - destruct (IH (Fin m) mi (S i)) as [-> | H]; [now left|right; lia].
Qed.

Lemma argmin_lt (l : list num) : l <> [] -> (argmin l < length l)%nat.
Proof.
  destruct l as [|x l]; [congruence|]. intros _. simpl.
  destruct (argmin_scan_range l x 0 1) as [-> | H]; lia.
Qed.

(** On numbers that are all rational, the scan ends on the running minimum
    it started with when nothing is strictly smaller, and otherwise on the
    first position of the strictly smallest entry. *)
Lemma argmin_scan_fin (qs : list Q) :
  forall (m : Q) (mi i : nat),
    (argmin_scan (Fin m) mi i (map Fin qs) = mi
     /\ forall p, (p < length qs)%nat -> m <= nth p qs 0)
    \/ (exists p, argmin_scan (Fin m) mi i (map Fin qs) = (i + p)%nat
          /\ (p < length qs)%nat
          /\ nth p qs 0 < m
          /\ (forall p', (p' < length qs)%nat -> nth p qs 0 <= nth p' qs 0)
          /\ (forall p', (p' < p)%nat -> nth p qs 0 < nth p' qs 0)).
Proof.
  induction qs as [|q qs IH]; intros m mi i.
  - left. split; [reflexivity|]. simpl. intros p Hp. lia.
  - cbn [map argmin_scan ngeb].
    destruct (Qle_bool m q) eqn:Hle; cbn [negb].
    + apply Qle_bool_iff in Hle.
      destruct (IH m mi (S i)) as [[Hr Hall] | (p & Hr & Hp & Hlt & Hmin & Hfirst)].
      * left. split; [assumption|].
        intros [|p] Hp; simpl; [assumption|]. apply Hall. simpl in Hp. lia.
      * right. exists (S p). rewrite Hr. simpl.
        split; [lia|]. split; [lia|]. split; [assumption|]. split.
        -- intros [|p'] Hp'; [lra|]. apply Hmin. simpl in Hp'. lia.
        -- intros [|p'] Hp'; [lra|]. apply Hfirst. lia.
    + assert (Hqm : q < m).
      { apply Qnot_le_lt. intros H. apply Qle_bool_iff in H. congruence. }
      destruct (IH q i (S i)) as [[Hr Hall] | (p & Hr & Hp & Hlt & Hmin & Hfirst)].
      * right. exists 0%nat. rewrite Hr. simpl.
        split; [lia|]. split; [lia|]. split; [assumption|]. split.
        -- intros [|p'] Hp'; [lra|]. apply Hall. simpl in Hp'. lia.
        -- intros p' Hp'. lia.
      * right. exists (S p). rewrite Hr. simpl.
        split; [lia|]. split; [lia|]. split; [lra|]. split.
        -- intros [|p'] Hp'; [lra|]. apply Hmin. simpl in Hp'. lia.
        -- intros [|p'] Hp'; [lra|]. apply Hfirst. lia.
Qed.

Lemma argmin_fin (qs : list Q) :
  qs <> [] ->
  let j := argmin (map Fin qs) in
  (j < length qs)%nat
  /\ (forall p, (p < length qs)%nat -> nth j qs 0 <= nth p qs 0)
  /\ (forall p, (p < j)%nat -> nth j qs 0 < nth p qs 0).
Proof.
  destruct qs as [|q0 qs]; [congruence|]. intros _. cbn [map argmin].
  destruct (argmin_scan_fin qs q0 0 1)
    as [[Hr Hall] | (p & Hr & Hp & Hlt & Hmin & Hfirst)]; rewrite Hr; simpl.
  - split; [lia|]. split.
    + intros [|p] Hp; [lra|]. apply Hall. lia.
    + intros p Hp. lia.
  - split; [lia|]. split.
    + intros [|p'] Hp'; [lra|]. apply Hmin. lia.
    + intros [|p'] Hp'; [lra|]. apply Hfirst. lia.
Qed.

(** ** Step 2 *)

Lemma closest_no_center (X : matrix) : closest X [] = Raise ValueError.
Proof. reflexivity. Qed.

(** Column [i] of [distances] holds the distances of point [i]: the
    broadcast computes, for every point, the index of its nearest center. *)
Lemma closest_eq (X centers : matrix) :
  centers <> [] ->
  closest X centers
  = Ok (map (fun x => argmin (map (fun c => sqdist x c) centers)) X).
Proof.
  intros Hne. unfold closest, argmin_axis0.
  destruct (distances X centers) as [|r l] eqn:E.
  { unfold distances in E. apply map_eq_nil in E. congruence. }
  rewrite <- E. unfold distances. f_equal.
  rewrite <- (map_nth_seq (fun x => argmin (map (fun c => sqdist x c) centers))
                X []).
  apply map_ext_in. intros i Hi. apply in_seq in Hi. f_equal.
  unfold column. rewrite map_map. apply map_ext. intros c.
  apply (nth_map_lt (fun x => sqdist x c) X [] NaN i). lia.
Qed.

Lemma closest_Ok_inv (X centers : matrix) (c : list nat) :
  closest X centers = Ok c ->
  centers <> []
  /\ c = map (fun x => argmin (map (fun c => sqdist x c) centers)) X.
Proof.
  intros H. destruct centers as [|c0 cs]; [discriminate|].
  rewrite closest_eq in H by discriminate.
  split; [discriminate|congruence].
Qed.

Lemma closest_length (X centers : matrix) (c : list nat) :
  closest X centers = Ok c -> length c = length X.
Proof.
  intros H. apply closest_Ok_inv in H. destruct H as [_ ->].
  apply length_map.
Qed.

Lemma closest_range (X centers : matrix) (c : list nat) :
  closest X centers = Ok c ->
  Forall (fun j => (j < length centers)%nat) c.
Proof.
  intros H. apply closest_Ok_inv in H. destruct H as [Hne ->].
  apply Forall_map, Forall_forall. intros x _.
  rewrite <- (length_map (fun c => sqdist x c) centers).
  apply argmin_lt. destruct centers; [congruence|discriminate].
Qed.

(** ** [np.unique] *)

Lemma insert_unique_In (k : nat) (l : list nat) (x : nat) :
  In x (insert_unique k l) <-> x = k \/ In x l.
Proof.
  induction l as [|h t IH]; simpl.
  - intuition.
  - destruct (k <? h) eqn:E1; simpl; [intuition|].
    destruct (k =? h) eqn:E2; simpl.
    + apply Nat.eqb_eq in E2. subst. intuition.
    + rewrite IH. intuition.
Qed.

Lemma insert_unique_sorted (k : nat) (l : list nat) :
  StronglySorted lt l -> StronglySorted lt (insert_unique k l).
Proof.
  induction l as [|h t IH]; intros Hs; simpl.
  - repeat constructor.
  - inversion Hs as [|? ? Hst Hall]; subst.
    destruct (k <? h) eqn:E1.
    + apply Nat.ltb_lt in E1. constructor; [assumption|].
      constructor; [assumption|].
      eapply Forall_impl; [|exact Hall]. intros a Ha. simpl in Ha. lia.
    + destruct (k =? h) eqn:E2; [assumption|].
      apply Nat.ltb_ge in E1. apply Nat.eqb_neq in E2.
      constructor; [now apply IH|].
      apply Forall_forall. intros x Hx. apply (proj1 (insert_unique_In _ _ _)) in Hx.
      destruct Hx as [-> | Hx]; [lia|].
      rewrite Forall_forall in Hall. now apply Hall.
Qed.

Lemma np_unique_In (c : list nat) (x : nat) : In x (np_unique c) <-> In x c.
Proof.
  induction c as [|h t IH]; simpl; [reflexivity|].
  rewrite insert_unique_In, IH. intuition.
Qed.

Lemma np_unique_sorted (c : list nat) : StronglySorted lt (np_unique c).
Proof.
  induction c as [|h t IH]; simpl; [constructor|].
  now apply insert_unique_sorted.
Qed.

Lemma sorted_NoDup (u : list nat) : StronglySorted lt u -> NoDup u.
Proof.
  induction 1 as [|h t Hs IH Hall]; constructor; [|assumption].
  intros Hin. rewrite Forall_forall in Hall. specialize (Hall h Hin). lia.
Qed.

Lemma np_unique_NoDup (c : list nat) : NoDup (np_unique c).
Proof. apply sorted_NoDup, np_unique_sorted. Qed.

(** A label below [K] that is not used leaves fewer than [K] distinct
    labels. *)
Lemma np_unique_length_lt (K : nat) (c : list nat) (j : nat) :
  Forall (fun x => (x < K)%nat) c -> (j < K)%nat -> ~ In j c ->
  (length (np_unique c) < K)%nat.
Proof.
  intros Hc Hj Hnin.
  assert (Hnd : NoDup (j :: np_unique c)).
  { constructor; [now rewrite np_unique_In|apply np_unique_NoDup]. }
  assert (Hincl : incl (j :: np_unique c) (seq 0 K)).
  { intros x [<- | Hx]; apply in_seq; [lia|].
    apply (proj1 (np_unique_In _ _)) in Hx. rewrite Forall_forall in Hc.
    specialize (Hc x Hx). lia. }
  pose proof (NoDup_incl_length Hnd Hincl) as H.
  rewrite length_seq in H. simpl in H. lia.
Qed.

Lemma np_unique_length_populated (K : nat) (c : list nat) :
  Forall (fun x => (x < K)%nat) c -> populated K c ->
  length (np_unique c) = K.
Proof.
  intros Hc Hp.
  assert (H1 : incl (np_unique c) (seq 0 K)).
  { intros x Hx. apply (proj1 (np_unique_In _ _)) in Hx. apply in_seq.
    rewrite Forall_forall in Hc. specialize (Hc x Hx). lia. }
  assert (H2 : incl (seq 0 K) (np_unique c)).
  { intros x Hx. apply in_seq in Hx. apply (proj2 (np_unique_In _ _)).
    apply Hp. lia. }
  pose proof (NoDup_incl_length (np_unique_NoDup c) H1) as L1.
  pose proof (NoDup_incl_length (seq_NoDup K 0) H2) as L2.
  rewrite length_seq in L1, L2. lia.
Qed.

(** A sorted list of distinct numbers, none below [a], either is the
    segment starting at [a] or misses a number of that segment. *)
Lemma sorted_gap (u : list nat) :
  forall a, StronglySorted lt u -> Forall (fun x => (a <= x)%nat) u ->
    u = seq a (length u)
    \/ exists k, (a <= k < a + length u)%nat /\ ~ In k u.
Proof.
  induction u as [|h t IH]; intros a Hs Hge; [now left|].
  inversion Hs as [|? ? Hst Hall]; subst.
  inversion Hge as [|? ? Hah Hat]; subst.
  destruct (Nat.eq_dec h a) as [->|Hne].
  - destruct (IH (S a) Hst) as [Heq | (k & Hk & Hnin)].
    + eapply Forall_impl; [|exact Hall]. intros x Hx. simpl in Hx. lia.
    + left. simpl. now rewrite <- Heq.
    + right. exists k. split; [simpl; lia|].
      intros [<- | Hin]; [lia|contradiction].
  - right. exists a. split; [simpl; lia|].
    intros [-> | Hin]; [congruence|].
    rewrite Forall_forall in Hall. specialize (Hall a Hin). lia.
Qed.

(** ** Boolean-mask selection and means *)

Lemma bool_index_map {A B : Type} (f : A -> B) (X : list A)
    (mask : list bool) :
  bool_index (map f X) mask = map f (bool_index X mask).
Proof.
  unfold bool_index. revert mask.
  induction X as [|x X IH]; intros [|b mask]; try reflexivity.
  simpl. destruct b; simpl; now rewrite IH.
Qed.

Lemma bool_index_Forall {A : Type} (P : A -> Prop) (X : list A)
    (mask : list bool) :
  Forall P X -> Forall P (bool_index X mask).
Proof.
  unfold bool_index. intros H. revert mask.
  induction H as [|x X Hx HX IH]; intros [|b mask]; try constructor.
  simpl. destruct b; simpl; [constructor; [assumption|]|]; apply IH.
Qed.

Lemma bool_index_unused {A : Type} (X : list A) (c : list nat) (k : nat) :
  ~ In k c -> bool_index X (eq_mask c k) = [].
Proof.
  unfold bool_index, eq_mask. revert c.
  induction X as [|x X IH]; intros [|h c] Hnin; try reflexivity.
  simpl. destruct (h =? k) eqn:E.
  - apply Nat.eqb_eq in E. subst. exfalso. apply Hnin. now left.
  - simpl. apply IH. intros Hin. apply Hnin. now right.
Qed.

Lemma bool_index_used {A : Type} (X : list A) (c : list nat) (k : nat) :
  length c = length X -> In k c -> bool_index X (eq_mask c k) <> [].
Proof.
  unfold bool_index, eq_mask. revert c.
  induction X as [|x X IH]; intros [|h c] Hlen Hin; try (simpl in *; easy).
  simpl. destruct (h =? k) eqn:E; simpl; [discriminate|].
  apply IH; [simpl in Hlen; lia|].
  destruct Hin as [-> | Hin]; [|assumption].
  rewrite Nat.eqb_refl in E. discriminate.
Qed.

Lemma map_const_seq {A : Type} (a : A) (n : nat) :
  forall s, map (fun _ => a) (seq s n) = repeat a n.
Proof.
  induction n as [|n IH]; intros s; [reflexivity|].
  simpl. now rewrite IH.
Qed.

Lemma mean_axis0_empty (D : nat) : mean_axis0 D [] = nan_row D.
Proof. unfold mean_axis0, nan_row. simpl. apply map_const_seq. Qed.

Lemma mean_axis0_inj (D : nat) (A : list (list Q)) :
  A <> [] -> Forall (fun r => length r = D) A ->
  mean_axis0 D (inj A) = inj_row (Qmean_axis0 D A).
Proof.
  intros Hne Hall. unfold mean_axis0, inj_row, Qmean_axis0.
  rewrite map_map. apply map_ext_in. intros d Hd. apply in_seq in Hd.
  assert (Hcol : column d (inj A) = map Fin (map (fun r => nth d r 0) A)).
  { unfold column, inj. rewrite !map_map. apply map_ext_in. intros r Hr.
    rewrite Forall_forall in Hall. specialize (Hall r Hr).
    apply (nth_map_lt Fin r 0 NaN d). lia. }
  rewrite Hcol, mean_inj, length_map; [reflexivity|].
  destruct A; [congruence|discriminate].
Qed.

Lemma ncols_inj (D : nat) (XQ : list (list Q)) :
  XQ <> [] -> Forall (fun r => length r = D) XQ -> ncols (inj XQ) = D.
Proof.
  intros Hne Hall. destruct XQ as [|r XQ]; [congruence|].
  inversion Hall; subst. simpl. unfold inj_row. now rewrite length_map.
Qed.

(** ** Step 3 *)

Lemma new_centers_eq (X centers : matrix) (c : list nat) :
  closest X centers = Ok c ->
  new_centers X centers
  = Ok (map (fun k => mean_axis0 (ncols X) (bool_index X (eq_mask c k)))
            (seq 0 (length (np_unique c)))).
Proof. intros H. unfold new_centers. now rewrite H. Qed.

Lemma new_centers_row (X centers : matrix) (c : list nat) (m : matrix)
    (k : nat) :
  closest X centers = Ok c -> new_centers X centers = Ok m ->
  (k < length m)%nat ->
  nth k m [] = mean_axis0 (ncols X) (bool_index X (eq_mask c k)).
Proof.
  intros Hc Hm Hk. rewrite (new_centers_eq _ _ _ Hc) in Hm.
  injection Hm as <-. rewrite length_map, length_seq in Hk.
  rewrite (nth_map_lt
             (fun k => mean_axis0 (ncols X) (bool_index X (eq_mask c k)))
             _ 0%nat [] k) by now rewrite length_seq.
  now rewrite seq_nth.
Qed.

(** C2 (as the code behaves): when some index below K gets no point,
    [new_centers] does not raise; it returns a plain array with one row per
    distinct label of the assignment, which is fewer than K rows. *)
Theorem new_centers_degenerate (X centers : matrix) (c : list nat) :
  closest X centers = Ok c ->
  (exists j, (j < length centers)%nat /\ ~ In j c) ->
  exists m, new_centers X centers = Ok m
            /\ length m = length (np_unique c)
            /\ (length m < length centers)%nat.
Proof.
  intros Hc (j & Hj & Hnin). eexists. split; [exact (new_centers_eq _ _ _ Hc)|].
  rewrite length_map, length_seq. split; [reflexivity|].
  eapply np_unique_length_lt; [|exact Hj|exact Hnin].
  now apply (closest_range X).
Qed.

Lemma new_centers_degenerate_witness :
  exists m, new_centers X_gap C_gap = Ok m
            /\ length m = length (np_unique [0; 0; 2]%nat)
            /\ (length m < length C_gap)%nat.
Proof.
  apply (new_centers_degenerate X_gap C_gap [0; 0; 2]%nat).
  - reflexivity.
  - exists 1%nat. split; [simpl; lia|].
    simpl. intros [H | [H | [H | []]]]; discriminate.
Defined.

(** The gap example: of the centers 0, 5, 10 the middle one attracts none of
    the points 0, 1, 10. *)
Lemma closest_gap : closest X_gap C_gap = Ok [0; 0; 2]%nat.
Proof. reflexivity. Qed.

Lemma new_centers_gap : new_centers X_gap C_gap = Ok [[Fin (1 # 2)]; [NaN]].
Proof. reflexivity. Qed.

(** C2 fails as stated: nothing is reported.  On the gap example the result
    is a plain two-row array in which the mean 10 of the populated cluster 2
    is missing; and a call with an empty cluster can return the very value
    that a call without one returns. *)
Lemma new_centers_reports_nothing :
  (closest X_gap C_gap = Ok [0; 0; 2]%nat
   /\ new_centers X_gap C_gap = Ok [[Fin (1 # 2)]; [NaN]])
  /\ (closest X3 (inj [[1]; [100]]) = Ok [0; 0; 0]%nat
      /\ closest X3 (inj [[1]]) = Ok [0; 0; 0]%nat
      /\ new_centers X3 (inj [[1]; [100]]) = new_centers X3 (inj [[1]])).
Proof.
  split; [split; [apply closest_gap|apply new_centers_gap]|].
  repeat split.
Qed.

Lemma filter_map_S (f : nat -> bool) (l : list nat) :
  filter f (map S l) = map S (filter (fun i => f (S i)) l).
Proof.
  induction l as [|a l IH]; [reflexivity|].
  simpl. destruct (f (S a)); simpl; now rewrite IH.
Qed.

(** The rows a mask [c == k] selects are the rows at the indices that carry
    label [k]. *)
Lemma bool_index_members {A : Type} (d : A) (X : list A) (c : list nat)
    (k : nat) :
  length c = length X ->
  bool_index X (eq_mask c k) = map (fun i => nth i X d) (members c k).
Proof.
  unfold bool_index, eq_mask, members. revert c.
  induction X as [|x X IH]; intros [|h c] Hlen; try (simpl in Hlen; lia).
  - reflexivity.
  - cbn [length seq]. rewrite <- seq_shift.
    cbn [map combine filter snd nth]. rewrite filter_map_S.
    simpl in Hlen.
    destruct (h =? k); cbn [map fst]; rewrite map_map, IH by lia;
      reflexivity.
Qed.

Example new_centers_four :
  matrix_eqb (new_centers (inj X_four) C_four) (Ok (inj [[0; 1]; [10; 1]]))
  = true.
Proof. reflexivity. Qed.

(** C10: on the gap example the labels are 0 and 2, and the second row
    returned is the NaN mean of the empty cluster 1 instead of the mean of
    cluster 2.  In general row k is all NaN whenever k is not a label; and,
    for rational points of dimension D >= 1, the rows returned are the means
    of the populated clusters exactly when the distinct labels are
    0, ..., j-1. *)
Theorem new_centers_nan_row :
  (closest X_gap C_gap = Ok [0; 0; 2]%nat
   /\ new_centers X_gap C_gap = Ok [[Fin (1 # 2)]; nan_row 1])
  /\ (forall (D : nat) (XQ : list (list Q)) (centers : matrix)
             (c : list nat) (m : matrix),
        (0 < D)%nat ->
        Forall (fun r => length r = D) XQ ->
        closest (inj XQ) centers = Ok c ->
        new_centers (inj XQ) centers = Ok m ->
        (forall k, (k < length m)%nat -> ~ In k c -> nth k m [] = nan_row D)
        /\ (m = map (fun k => mean_axis0 D (bool_index (inj XQ) (eq_mask c k)))
                    (np_unique c)
            <-> np_unique c = seq 0 (length (np_unique c)))).
Proof.
  split; [split; [apply closest_gap|apply new_centers_gap]|].
  intros D XQ centers c m HD Hshape Hc Hm.
  pose proof (closest_length _ _ _ Hc) as Hlen.
  pose proof (new_centers_eq _ _ _ Hc) as Hm'.
  assert (Hlm : length m = length (np_unique c)).
  { rewrite Hm in Hm'. injection Hm' as ->. now rewrite length_map, length_seq. }
  assert (Hcols : m <> [] -> ncols (inj XQ) = D).
  { intros Hne. apply ncols_inj; [|assumption]. intros ->.
    simpl in Hlen. destruct c; [|discriminate].
    simpl in Hlm. destruct m; [congruence|discriminate]. }
  assert (Hnan : forall k, (k < length m)%nat -> ~ In k c ->
                           nth k m [] = nan_row D).
  { intros k Hk Hnin. rewrite (new_centers_row _ _ _ _ k Hc Hm Hk).
    rewrite bool_index_unused by assumption.
    rewrite Hcols by (destruct m; [simpl in Hk; lia|discriminate]).
    apply mean_axis0_empty. }
  split; [exact Hnan|]. split.
  - intros Heq.
    destruct (sorted_gap (np_unique c) 0 (np_unique_sorted c)) as [H | (k & Hk & Hnin)].
    { apply Forall_forall. intros; lia. }
    { exact H. }
    exfalso. simpl in Hk.
    assert (Hnin' : ~ In k c) by (now rewrite <- np_unique_In).
    assert (Hk' : (k < length m)%nat) by lia.
    pose proof (Hnan k Hk' Hnin') as Hrow.
    rewrite Heq in Hrow at 1.
    rewrite (nth_map_lt
               (fun k => mean_axis0 D (bool_index (inj XQ) (eq_mask c k)))
               (np_unique c) 0%nat [] k) in Hrow by lia.
    set (k' := nth k (np_unique c) 0%nat) in Hrow.
    assert (Hin : In k' c).
    { apply (proj1 (np_unique_In c k')). apply nth_In. lia. }
    unfold inj in Hrow at 1. rewrite bool_index_map in Hrow.
    fold (inj (bool_index XQ (eq_mask c k'))) in Hrow.
    rewrite mean_axis0_inj in Hrow.
    + destruct D as [|D]; [lia|]. discriminate.
    + intros Hnil.
      apply (bool_index_used (inj XQ) c k'); [assumption|assumption|].
      unfold inj. rewrite bool_index_map, Hnil. reflexivity.
    + now apply bool_index_Forall.
  - intros Hseg. rewrite Hm in Hm'. injection Hm' as ->.
    rewrite Hseg at 2. apply map_ext_in. intros k Hk.
    f_equal. apply Hcols.
    apply in_seq in Hk. destruct (np_unique c); [simpl in Hk; lia|discriminate].
Qed.

Lemma new_centers_nan_row_witness :
  (forall k, (k < length [[Fin (1 # 2)]; [NaN]])%nat ->
             ~ In k [0; 0; 2]%nat ->
             nth k [[Fin (1 # 2)]; [NaN]] [] = nan_row 1)
  /\ ([[Fin (1 # 2)]; [NaN]]
      = map (fun k => mean_axis0 1
                        (bool_index (inj [[0]; [1]; [10]])
                           (eq_mask [0; 0; 2]%nat k)))
            (np_unique [0; 0; 2]%nat)
      <-> np_unique [0; 0; 2]%nat
          = seq 0 (length (np_unique [0; 0; 2]%nat))).
Proof.
  apply (proj2 new_centers_nan_row 1%nat [[0]; [1]; [10]] C_gap
           [0; 0; 2]%nat [[Fin (1 # 2)]; [NaN]]).
  - lia.
  - repeat constructor.
  - reflexivity.
  - reflexivity.
Defined.

(** ** Arrays that agree up to the value of their fractions *)

Lemma neq_refl (a : num) : neq a a.
Proof. destruct a; simpl; [reflexivity|exact I]. Qed.

Lemma row_eq_refl (a : row) : row_eq a a.
Proof. induction a; constructor; [apply neq_refl|assumption]. Qed.

Lemma lift2_neq (f : Q -> Q -> Q) :
  (forall x x' y y', x == x' -> y == y' -> f x y == f x' y') ->
  forall a a' b b', neq a a' -> neq b b' -> neq (lift2 f a b) (lift2 f a' b').
Proof.
  intros Hf [x|] [x'|] [y|] [y'|]; simpl; try tauto. apply Hf.
Qed.

Lemma nadd_neq (a a' b b' : num) :
  neq a a' -> neq b b' -> neq (nadd a b) (nadd a' b').
Proof. apply lift2_neq. intros x x' y y' -> ->. reflexivity. Qed.

Lemma nsub_neq (a a' b b' : num) :
  neq a a' -> neq b b' -> neq (nsub a b) (nsub a' b').
Proof. apply lift2_neq. intros x x' y y' -> ->. reflexivity. Qed.

Lemma nmul_neq (a a' b b' : num) :
  neq a a' -> neq b b' -> neq (nmul a b) (nmul a' b').
Proof. apply lift2_neq. intros x x' y y' -> ->. reflexivity. Qed.

Lemma sqdist_cons (x b : num) (a c : row) :
  sqdist (x :: a) (b :: c)
  = nadd (nmul (nsub x b) (nsub x b)) (sqdist a c).
Proof. reflexivity. Qed.

Lemma sqdist_neq (x : row) :
  forall c c', row_eq c c' -> neq (sqdist x c) (sqdist x c').
Proof.
  induction x as [|a x IH]; intros c c' H.
  - apply neq_refl.
  - destruct H as [|b b' c c' Hb Hc]; [apply neq_refl|].
    rewrite !sqdist_cons.
    pose proof (nsub_neq a a b b' (neq_refl a) Hb) as Hs.
    apply nadd_neq; [now apply nmul_neq|now apply IH].
Qed.

Lemma ngeb_neq (x x' m m' : num) :
  neq x x' -> neq m m' -> ngeb x m = ngeb x' m'.
Proof.
  destruct x as [a|], x' as [a'|], m as [b|], m' as [b'|]; simpl;
    try tauto.
  intros Ha Hb.
  destruct (Qle_bool b a) eqn:E1, (Qle_bool b' a') eqn:E2; try reflexivity.
  - apply Qle_bool_iff in E1. rewrite Ha, Hb in E1.
    apply Qle_bool_iff in E1. congruence.
  - apply Qle_bool_iff in E2. rewrite <- Ha, <- Hb in E2.
    apply Qle_bool_iff in E2. congruence.
Qed.

Lemma argmin_scan_neq (l l' : list num) :
  Forall2 neq l l' ->
  forall mp mp' mi i, neq mp mp' ->
    argmin_scan mp mi i l = argmin_scan mp' mi i l'.
Proof.
  induction 1 as [|x x' t t' Hx Hl IH]; intros mp mp' mi i Hmp;
    [reflexivity|].
  simpl. destruct mp as [m|], mp' as [m'|]; simpl in Hmp; try tauto.
  rewrite (ngeb_neq x x' (Fin m) (Fin m') Hx Hmp).
  destruct (negb (ngeb x' (Fin m'))); now apply IH.
Qed.

Lemma argmin_neq (l l' : list num) : Forall2 neq l l' -> argmin l = argmin l'.
Proof.
  intros [|x x' t t' Hx Hl]; [reflexivity|].
  simpl. now apply argmin_scan_neq.
Qed.

(** When all distances tie (or are all NaN), index 0 wins. *)
Lemma argmin_scan_tie (d : num) (l : list num) :
  Forall (neq d) l -> forall i, argmin_scan d 0 i l = 0%nat.
Proof.
  induction 1 as [|x t Hx Hl IH]; intros i; [reflexivity|].
  simpl. destruct d as [m|]; [|reflexivity].
  destruct x as [a|]; simpl in Hx; [|tauto].
  simpl. assert (E : Qle_bool m a = true).
  { apply Qle_bool_iff. rewrite Hx. apply Qle_refl. }
  rewrite E. simpl. apply IH.
Qed.

Lemma closest_all_tied (X centers : matrix) (m0 : row) :
  centers <> [] -> Forall (row_eq m0) centers ->
  closest X centers = Ok (map (fun _ => 0%nat) X).
Proof.
  intros Hne Hall. rewrite closest_eq by assumption. f_equal.
  apply map_ext. intros x.
  destruct centers as [|c0 cs]; [congruence|].
  inversion Hall as [|? ? H0 Hcs]; subst. simpl.
  apply argmin_scan_tie. apply Forall_map.
  eapply Forall_impl; [|exact Hcs]. intros c Hc. simpl.
  (* both are tied with the distance to m0 *)
  assert (H1 : neq (sqdist x m0) (sqdist x c0)) by now apply sqdist_neq.
  assert (H2 : neq (sqdist x m0) (sqdist x c)) by now apply sqdist_neq.
  destruct (sqdist x m0), (sqdist x c0), (sqdist x c); simpl in *;
    try tauto.
  now rewrite <- H1, <- H2.
Qed.

(** ** Sums of squares that vanish *)

Lemma Qsq_nonneg (a : Q) : 0 <= a * a.
Proof.
  destruct a as [n d]. unfold Qle. simpl. rewrite Z.mul_1_r.
  apply Z.square_nonneg.
Qed.

Lemma nadd_Fin_inv (a b : num) (q : Q) :
  nadd a b = Fin q -> exists x y, a = Fin x /\ b = Fin y /\ q = x + y.
Proof.
  destruct a as [x|], b as [y|]; simpl; try discriminate.
  intros H. injection H as <-. now exists x, y.
Qed.

Lemma sqdist_nonneg (a : row) :
  forall b q, sqdist a b = Fin q -> 0 <= q.
Proof.
  induction a as [|x a IH]; intros b q H.
  - injection H as <-. apply Qle_refl.
  - destruct b as [|y b]; [injection H as <-; apply Qle_refl|].
    rewrite sqdist_cons in H. apply nadd_Fin_inv in H.
    destruct H as (s & t & Hs & Ht & ->).
    specialize (IH b t Ht).
    destruct x as [x'|], y as [y'|]; simpl in Hs; try discriminate.
    injection Hs as <-.
    pose proof (Qsq_nonneg (x' - y')). lra.
Qed.

Lemma ncols_has_cols (D : nat) (X : matrix) :
  X <> [] -> has_cols D X -> ncols X = D.
Proof.
  intros Hne H. destruct X as [|r X]; [congruence|].
  now inversion H.
Qed.

Lemma mean_axis0_length (D : nat) (A : matrix) : length (mean_axis0 D A) = D.
Proof. unfold mean_axis0. now rewrite length_map, length_seq. Qed.

Lemma new_centers_has_cols (X centers moved : matrix) :
  new_centers X centers = Ok moved -> has_cols (ncols X) moved.
Proof.
  unfold new_centers. destruct (closest X centers) as [c|e]; [|discriminate].
  simpl. intros H. injection H as <-.
  apply Forall_map, Forall_forall. intros k _. apply mean_axis0_length.
Qed.

(** ** Sums of rationals *)








(** ** The mean minimises the sum of squared deviations *)








(** ** The objective over rational points *)

Lemma combine_map_l {A B C : Type} (f : A -> B) (l : list A) :
  forall l' : list C,
    combine (map f l) l' = map (fun p => (f (fst p), snd p)) (combine l l').
Proof.
  induction l as [|a l IH]; intros [|b l']; try reflexivity.
  simpl. now rewrite IH.
Qed.

Lemma inj_nth (MQ : list (list Q)) (j : nat) :
  nth j (inj MQ) [] = inj_row (nth j MQ []).
Proof.
  unfold inj. change (@nil num) with (inj_row []). apply map_nth.
Qed.

Lemma closest_inj (XQ CQ : list (list Q)) :
  CQ <> [] ->
  closest (inj XQ) (inj CQ)
  = Ok (map (fun x => argmin (map Fin (map (Qsqdist x) CQ))) XQ).
Proof.
  intros Hne. rewrite closest_eq by (destruct CQ; [congruence|discriminate]).
  f_equal. unfold inj. rewrite map_map. apply map_ext. intros x.
  f_equal. rewrite !map_map. apply map_ext. intros cq. apply sqdist_inj.
Qed.


(** * Further properties of the notebook code *)

(** ** Calls without centers *)

Lemma exn_ValueError (e : exn) : e = ValueError.
Proof. now destruct e. Qed.

Lemma new_centers_no_center (X : matrix) : new_centers X [] = Raise ValueError.
Proof. reflexivity. Qed.

(** X1: [kMeans] raises for K <= 0 and for an empty dataset, whatever the
    draws and the cap: a negative K and an empty population are refused by
    the random choice, and with K = 0 the empty array of centers reaches
    [np.argmin] over an axis of length 0. *)
Theorem kMeans_raises_without_centers (rng : nat -> nat) (X : matrix)
    (K max_iter : Z) :
  (K <= 0)%Z \/ X = [] ->
  exists calls, kMeans rng X K max_iter = Some (calls, Raise ValueError).
Proof.
  intros H. unfold kMeans, kMeans_fuel.
  destruct (np_random_choice rng (length X) K) as [idx|e] eqn:Hch.
  - assert (HK : K = 0%Z).
    { unfold np_random_choice in Hch.
      destruct (K <? 0)%Z eqn:E1; [discriminate|]. apply Z.ltb_ge in E1.
      destruct H as [H | ->]; [lia|]. simpl in Hch.
      destruct (0 <? K)%Z eqn:E2; [discriminate|]. apply Z.ltb_ge in E2. lia. }
    subst K. unfold np_random_choice in Hch. simpl in Hch.
    rewrite andb_false_r in Hch. injection Hch as <-.
    cbn [take_rows map while_loop].
    destruct (loop_cond max_iter (mk_state [] 0 (Fin 1))).
    + exists 1%nat. reflexivity.
    + exists 0%nat. reflexivity.
  - exists 0%nat. now rewrite (exn_ValueError e).
Qed.

Lemma kMeans_raises_without_centers_witness :
  exists calls, kMeans (fun i => i) X3 0 10000 = Some (calls, Raise ValueError).
Proof.
  apply (kMeans_raises_without_centers (fun i => i) X3 0 10000).
  left. lia.
Defined.

(** ** Shape of the update *)

Lemma np_unique_length_le (K : nat) (c : list nat) :
  Forall (fun x => (x < K)%nat) c -> (length (np_unique c) <= K)%nat.
Proof.
  intros Hc.
  assert (H : incl (np_unique c) (seq 0 K)).
  { intros x Hx. apply (proj1 (np_unique_In _ _)) in Hx. apply in_seq.
    rewrite Forall_forall in Hc. specialize (Hc x Hx). lia. }
  pose proof (NoDup_incl_length (np_unique_NoDup c) H) as L.
  now rewrite length_seq in L.
Qed.

Lemma np_unique_length_le_length (c : list nat) :
  (length (np_unique c) <= length c)%nat.
Proof.
  apply NoDup_incl_length; [apply np_unique_NoDup|].
  intros x Hx. now apply (proj1 (np_unique_In _ _)).
Qed.

Lemma np_unique_nonempty (c : list nat) : c <> [] -> np_unique c <> [].
Proof.
  destruct c as [|h t]; [congruence|]. intros _ Hnil.
  assert (Hin : In h (np_unique (h :: t)))
    by (apply (proj2 (np_unique_In _ _)); now left).
  rewrite Hnil in Hin. contradiction.
Qed.

Lemma new_centers_length (X centers m : matrix) (c : list nat) :
  closest X centers = Ok c -> new_centers X centers = Ok m ->
  length m = length (np_unique c).
Proof.
  intros Hc Hm. rewrite (new_centers_eq _ _ _ Hc) in Hm.
  injection Hm as <-. now rewrite length_map, length_seq.
Qed.

Lemma new_centers_rows (X centers m : matrix) :
  new_centers X centers = Ok m ->
  (length m <= length centers)%nat
  /\ (length m <= length X)%nat
  /\ (X <> [] -> (1 <= length m)%nat)
  /\ has_cols (ncols X) m.
Proof.
  intros Hm.
  destruct (closest X centers) as [c|e] eqn:Hc;
    [|unfold new_centers in Hm; rewrite Hc in Hm; discriminate].
  rewrite (new_centers_length _ _ _ _ Hc Hm).
  split; [apply np_unique_length_le; now apply (closest_range X)|].
  split; [rewrite <- (closest_length _ _ _ Hc);
          apply np_unique_length_le_length|].
  split; [|now apply (new_centers_has_cols X centers)].
  intros HX.
  assert (Hne : np_unique c <> []).
  { apply np_unique_nonempty. intros ->.
    apply closest_length in Hc. destruct X; [congruence|discriminate]. }
  destruct (np_unique c); [congruence|simpl; lia].
Qed.

(** X2: the update never returns more rows than it was given centers, nor
    more rows than there are points; on a non-empty dataset it returns at
    least one row; and every row has as many entries as the dataset has
    columns. *)
Theorem new_centers_shape (X centers m : matrix) :
  new_centers X centers = Ok m ->
  (length m <= length centers)%nat
  /\ (length m <= length X)%nat
  /\ (X <> [] -> (1 <= length m)%nat)
  /\ has_cols (ncols X) m.
Proof. apply new_centers_rows. Qed.

Lemma new_centers_shape_witness :
  (length [[Fin (1 # 2)]; [NaN]] <= length C_gap)%nat
  /\ (length [[Fin (1 # 2)]; [NaN]] <= length X_gap)%nat
  /\ (X_gap <> [] -> (1 <= length [[Fin (1 # 2)]; [NaN]])%nat)
  /\ has_cols (ncols X_gap) [[Fin (1 # 2)]; [NaN]].
Proof.
  apply (new_centers_shape X_gap C_gap [[Fin (1 # 2)]; [NaN]]).
  reflexivity.
Defined.

(** A property of the centers that every update keeps holds when the loop
    ends. *)
Lemma while_loop_invariant (P : matrix -> Prop) (X : matrix) (max_iter : Z) :
  (forall cs m, P cs -> new_centers X cs = Ok m -> P m) ->
  forall fuel st calls calls' st',
    P (st_centers st) ->
    while_loop fuel X max_iter st calls = Some (calls', Ok st') ->
    P (st_centers st').
Proof.
  intros Hstep. induction fuel as [|fuel IH]; intros st calls calls' st' HP Hw;
    [discriminate|].
  simpl in Hw. destruct (loop_cond max_iter st).
  - destruct (loop_body X st) as [st1|e] eqn:Hb; [|discriminate].
    apply (IH st1 (S calls) calls' st'); [|assumption].
    unfold loop_body in Hb.
    destruct (new_centers X (st_centers st)) as [m|e] eqn:Hm;
      simpl in Hb; [|discriminate].
    destruct (Delta2 m (st_centers st)); simpl in Hb; [|discriminate].
    injection Hb as <-. simpl. now apply (Hstep (st_centers st)).
  - injection Hw as _ <-. assumption.
Qed.

(** X3: when [kMeans] returns, it returns between 1 and K centers, one
    label per point, and every label is the index of a returned center. *)
Theorem kMeans_result_shape (rng : nat -> nat) (X : matrix) (K max_iter : Z)
    (calls : nat) (o : kmeans_out) :
  kMeans rng X K max_iter = Some (calls, Ok o) ->
  (1 <= length (fst (returned o)))%nat
  /\ (Z.of_nat (length (fst (returned o))) <= K)%Z
  /\ length (snd (returned o)) = length X
  /\ Forall (fun j => (j < length (fst (returned o)))%nat) (snd (returned o)).
Proof.
  unfold kMeans, kMeans_fuel. intros Hk.
  destruct (np_random_choice rng (length X) K) as [idx|e] eqn:Hch;
    [|discriminate].
  destruct (while_loop (S (Z.to_nat max_iter)) X max_iter
              (mk_state (take_rows X idx) 0 (Fin 1)) 0)
    as [[calls' [st|e]]|] eqn:Hw; try discriminate.
  destruct (closest X (st_centers st)) as [labels|e] eqn:Hl;
    simpl in Hk; [|discriminate].
  injection Hk as _ <-. simpl.
  assert (Hidx : Z.of_nat (length idx) = K).
  { unfold np_random_choice in Hch.
    destruct (K <? 0)%Z eqn:E1; [discriminate|]. apply Z.ltb_ge in E1.
    destruct ((length X =? 0)%nat && (0 <? K)%Z)%bool; [discriminate|].
    injection Hch as <-. rewrite length_map, length_seq. lia. }
  assert (Hle : (length (st_centers st) <= length idx)%nat).
  { apply (while_loop_invariant
             (fun cs => (length cs <= length idx)%nat) X max_iter)
      with (fuel := S (Z.to_nat max_iter))
           (st := mk_state (take_rows X idx) 0 (Fin 1))
           (calls := 0%nat) (calls' := calls'); [| |exact Hw].
    - intros cs m Hcs Hm.
      destruct (new_centers_rows X cs m Hm) as [H _]. lia.
    - simpl. unfold take_rows. now rewrite length_map. }
  destruct (closest_Ok_inv _ _ _ Hl) as [Hne _].
  split; [destruct (st_centers st); [congruence|simpl; lia]|].
  split; [lia|].
  split; [now apply (closest_length X (st_centers st))|].
  now apply (closest_range X).
Qed.

Lemma kMeans_result_shape_witness :
  (1 <= length (fst ([[Fin (3 # 3)]], [0; 0; 0]%nat)))%nat
  /\ (Z.of_nat (length (fst ([[Fin (3 # 3)]], [0; 0; 0]%nat))) <= 1)%Z
  /\ length (snd ([[Fin (3 # 3)]], [0; 0; 0]%nat)) = length X3
  /\ Forall (fun j => (j < length (fst ([[Fin (3 # 3)]], [0; 0; 0]%nat)))%nat)
       (snd ([[Fin (3 # 3)]], [0; 0; 0]%nat)).
Proof.
  apply (kMeans_result_shape (fun _ => 0%nat) X3 1 2 2
           (mk_out 2 ([[Fin (3 # 3)]], [0; 0; 0]%nat))).
  reflexivity.
Defined.

(** ** The update inside the loop *)

Lemma Delta2_Ok_iff (moved centers : matrix) :
  (exists d, Delta2 moved centers = Ok d)
  <-> (length moved = length centers \/ length moved = 1%nat
       \/ length centers = 1%nat).
Proof.
  unfold Delta2, broadcast_rows.
  destruct (length moved =? length centers)%nat eqn:E1;
    [|destruct (length moved =? 1)%nat eqn:E2;
      [|destruct (length centers =? 1)%nat eqn:E3]];
    nat_bools; simpl; split; intros H;
    try (eexists; reflexivity); try tauto.
  destruct H as [d H]. discriminate.
Qed.

(** X4: on a non-empty dataset, one pass through the loop body raises
    exactly when the labels use at least two but not all of the centers:
    [moved - centers] then has two shapes that do not broadcast.  (With a
    single label the one updated row is broadcast over the old centers, and
    the loop goes on with one center.) *)
Theorem loop_body_raises_iff (X : matrix) (st : loop_state) (c : list nat) :
  X <> [] ->
  closest X (st_centers st) = Ok c ->
  (loop_body X st = Raise ValueError
   <-> (2 <= length (np_unique c) < length (st_centers st))%nat).
Proof.
  intros HX Hc.
  pose proof (new_centers_eq _ _ _ Hc) as Hm.
  set (m := map (fun k => mean_axis0 (ncols X) (bool_index X (eq_mask c k)))
              (seq 0 (length (np_unique c)))) in Hm.
  destruct (new_centers_rows X (st_centers st) m Hm) as (Hle & _ & Hge & _).
  specialize (Hge HX).
  assert (Hlen : length m = length (np_unique c))
    by (unfold m; now rewrite length_map, length_seq).
  rewrite <- Hlen.
  unfold loop_body. rewrite Hm. cbn [bind].
  pose proof (Delta2_Ok_iff m (st_centers st)) as HD.
  destruct (Delta2 m (st_centers st)) as [d|e] eqn:Hd; cbn [bind].
  - split; [discriminate|]. intros H.
    assert (Hex : exists d', Ok d = Ok d') by (now exists d).
    apply HD in Hex. lia.
  - split; [|intros _; now rewrite (exn_ValueError e)].
    intros _.
    destruct (Nat.eq_dec (length m) (length (st_centers st))) as [E|E].
    { destruct (proj2 HD (or_introl E)) as [d' Hd']. discriminate. }
    destruct (Nat.eq_dec (length m) 1) as [E1|E1].
    { destruct (proj2 HD (or_intror (or_introl E1))) as [d' Hd']. discriminate. }
    lia.
Qed.

Lemma loop_body_raises_iff_witness :
  loop_body X_gap (mk_state C_gap 0 (Fin 1)) = Raise ValueError
  <-> (2 <= length (np_unique [0; 0; 2]%nat)
       < length (st_centers (mk_state C_gap 0 (Fin 1))))%nat.
Proof.
  apply (loop_body_raises_iff X_gap (mk_state C_gap 0 (Fin 1)) [0; 0; 2]%nat).
  - discriminate.
  - reflexivity.
Defined.

(** ** Centers that coincide *)




Lemma nadd_Fin_0_r (a : num) : neq (nadd a (Fin 0)) a.
Proof. destruct a as [q|]; simpl; [ring|exact I]. Qed.










(** ** A NaN update ends the loop *)

Lemma np_unique_const (j : nat) (c : list nat) :
  c <> [] -> Forall (eq j) c -> np_unique c = [j].
Proof.
  induction c as [|h c IH]; [congruence|]. intros _ Hall.
  inversion Hall as [|? ? Hh Hc]; subst.
  destruct c as [|h' c]; [reflexivity|].
  cbn [np_unique fold_right] in *. unfold np_unique in IH.
  rewrite IH by (discriminate || assumption).
  simpl. now rewrite Nat.ltb_irrefl, Nat.eqb_refl.
Qed.

Lemma sqdist_nan_row (D : nat) (b : row) :
  (1 <= D)%nat -> length b = D -> sqdist (nan_row D) b = NaN.
Proof.
  intros HD Hb. destruct D as [|D]; [lia|].
  destruct b as [|y b]; [discriminate|]. reflexivity.
Qed.

Lemma Delta2_nan_row (D : nat) (centers : matrix) :
  (1 <= D)%nat -> centers <> [] -> has_cols D centers ->
  Delta2 [nan_row D] centers = Ok NaN.
Proof.
  intros HD Hne Hcols. destruct centers as [|b0 rest]; [congruence|].
  inversion Hcols as [|? ? Hb0 _]; subst.
  unfold Delta2, broadcast_rows.
  destruct (length [nan_row (length b0)] =? length (b0 :: rest))%nat;
    [|cbn [length Nat.eqb]];
    cbn [combine map bind fst snd hd]; rewrite nsum_cons;
    now rewrite (sqdist_nan_row (length b0) b0 HD eq_refl).
Qed.

(** X7: if every point is nearest to one center whose index is not 0, the
    update is a single all-NaN row (the mean of the empty cluster 0), Delta
    is NaN, and the loop stops after that pass, whatever the cap; the labels
    then computed from the NaN row are all 0. *)
Theorem loop_stops_on_nan_update (D : nat) (X : matrix) (st : loop_state)
    (c : list nat) (j : nat) (max_iter : Z) (fuel calls : nat) :
  X <> [] -> (1 <= D)%nat ->
  has_cols D X -> has_cols D (st_centers st) ->
  closest X (st_centers st) = Ok c ->
  Forall (eq j) c -> (1 <= j)%nat ->
  loop_cond max_iter st = true ->
  while_loop (S (S fuel)) X max_iter st calls
  = Some (S calls, Ok (mk_state [nan_row D] (st_iteration st + 1) NaN))
  /\ closest X [nan_row D] = Ok (map (fun _ => 0%nat) X).
Proof.
  intros HX HD HXD HCD Hc Hall Hj Hcond.
  destruct (closest_Ok_inv _ _ _ Hc) as [Hne _].
  assert (Hcne : c <> []).
  { intros ->. apply closest_length in Hc.
    destruct X; [congruence|discriminate]. }
  assert (Hnew : new_centers X (st_centers st) = Ok [nan_row D]).
  { rewrite (new_centers_eq _ _ _ Hc), (np_unique_const j c Hcne Hall).
    cbn [length seq map]. rewrite bool_index_unused.
    - now rewrite mean_axis0_empty, (ncols_has_cols D X HX HXD).
    - intros Hin. rewrite Forall_forall in Hall.
      specialize (Hall 0%nat Hin). lia. }
  split.
  - cbn [while_loop]. rewrite Hcond. unfold loop_body.
    rewrite Hnew. cbn [bind].
    rewrite (Delta2_nan_row D (st_centers st) HD Hne HCD). cbn [bind].
    reflexivity.
  - apply (closest_all_tied X [nan_row D] (nan_row D)); [discriminate|].
    constructor; [apply row_eq_refl|constructor].
Qed.

Lemma loop_stops_on_nan_update_witness :
  while_loop 2 X3 5 (mk_state (inj [[100]; [1]]) 0 (Fin 1)) 0
  = Some (1%nat,
          Ok (mk_state [nan_row 1]
                (st_iteration (mk_state (inj [[100]; [1]]) 0 (Fin 1)) + 1)
                NaN))
  /\ closest X3 [nan_row 1] = Ok (map (fun _ => 0%nat) X3).
Proof.
  apply (loop_stops_on_nan_update 1 X3 (mk_state (inj [[100]; [1]]) 0 (Fin 1))
           [1; 1; 1]%nat 1 5 0 0).
  - discriminate.
  - lia.
  - repeat constructor.
  - repeat constructor.
  - reflexivity.
  - repeat constructor.
  - lia.
  - reflexivity.
Defined.

(** ** Moving the dataset and the centers together *)

Lemma Qsqdist_translate (t : list Q) :
  forall x c, length x = length t -> length c = length t ->
    Qsqdist (Qtranslate t x) (Qtranslate t c) == Qsqdist x c.
Proof.
  unfold Qsqdist, Qtranslate.
  induction t as [|a t IH]; intros [|x0 x] [|c0 c] Hx Hc;
    try discriminate; [reflexivity|].
  cbn [combine map Qsum fold_right fst snd].
  simpl in Hx, Hc. injection Hx as Hx. injection Hc as Hc.
  specialize (IH x c Hx Hc). unfold Qsum in IH. rewrite IH. ring.
Qed.

(** X10: [closest] only depends on the position of the points relative to
    the centers: moving every point and every center of rational data by
    the same vector leaves every label unchanged. *)
Theorem closest_translation_invariant (t : list Q) (XQ CQ : list (list Q)) :
  Forall (fun r => length r = length t) XQ ->
  Forall (fun r => length r = length t) CQ ->
  closest (inj (map (Qtranslate t) XQ)) (inj (map (Qtranslate t) CQ))
  = closest (inj XQ) (inj CQ).
Proof.
  intros HX HC. destruct CQ as [|c0 CQ']; [reflexivity|].
  remember (c0 :: CQ') as CQ eqn:ECQ.
  assert (Hne : CQ <> []) by (subst; discriminate).
  assert (Hne' : map (Qtranslate t) CQ <> []) by (subst; discriminate).
  rewrite (closest_inj _ _ Hne'), (closest_inj _ _ Hne). f_equal.
  rewrite map_map. apply map_ext_in. intros x Hx.
  apply argmin_neq. rewrite !map_map.
  rewrite Forall_forall in HX. specialize (HX x Hx).
  clear ECQ Hne Hne'.
  induction CQ as [|c CQ IH]; simpl; constructor.
  - simpl. inversion HC; subst. now apply Qsqdist_translate.
  - apply IH. now inversion HC.
Qed.

Lemma closest_translation_invariant_witness :
  closest (inj (map (Qtranslate [3]) [[0]; [1]; [10]]))
          (inj (map (Qtranslate [3]) [[0]; [5]; [10]]))
  = closest (inj [[0]; [1]; [10]]) (inj [[0]; [5]; [10]]).
Proof.
  apply (closest_translation_invariant [3] [[0]; [1]; [10]] [[0]; [5]; [10]]);
    repeat constructor.
Defined.

(** ** The two-class subset of the supervised-learning notebook *)

Lemma bool_index_length {A : Type} (X : list A) :
  forall mask, length X = length mask ->
               length (bool_index X mask) = np_sum_bool mask.
Proof.
  unfold bool_index, np_sum_bool.
  induction X as [|x X IH]; intros [|b mask] Hlen; try discriminate;
    [reflexivity|].
  simpl in Hlen. injection Hlen as Hlen.
  simpl. destruct b; simpl; now rewrite IH.
Qed.

Lemma bool_index_own_label (labels : list nat) (k : nat) :
  bool_index labels (eq_mask labels k)
  = repeat k (np_sum_bool (eq_mask labels k)).
Proof.
  unfold bool_index, eq_mask, np_sum_bool.
  induction labels as [|h t IH]; [reflexivity|].
  simpl. destruct (h =? k) eqn:E; simpl; [|assumption].
  apply Nat.eqb_eq in E. subst. now rewrite IH.
Qed.

Lemma num_zeros_blocks (n0 n1 : nat) :
  num_zeros (repeat 0%nat n0 ++ repeat 1%nat n1) = n0.
Proof.
  unfold num_zeros, np_sum_bool, eq_mask.
  induction n0 as [|n0 IH]; simpl.
  - induction n1 as [|n1 IH1]; [reflexivity|assumption].
  - now rewrite IH.
Qed.

Lemma firstn_block {A : Type} (l1 l2 : list A) :
  firstn (length l1) (l1 ++ l2) = l1.
Proof. induction l1 as [|a l1 IH]; simpl; [reflexivity|now rewrite IH]. Qed.

Lemma skipn_block {A : Type} (l1 l2 : list A) :
  skipn (length l1) (l1 ++ l2) = l2.
Proof. induction l1 as [|a l1 IH]; simpl; [reflexivity|assumption]. Qed.

(** X11: in the two-class subset, [y] is a block of 0s followed by a block
    of 1s, [np.sum(y==0)] is the length of the first block, and cutting [X]
    and [y] at that index ([[:num_zeros]], [[num_zeros:]]) gives back exactly
    the rows labelled 0 and the rows labelled 1. *)
Theorem two_classes_split {A : Type} (data : list A) (labels : list nat) :
  length data = length labels ->
  let X := fst (two_classes data labels) in
  let y := snd (two_classes data labels) in
  let n := num_zeros y in
  length X = length y
  /\ firstn n X = bool_index data (eq_mask labels 0)
  /\ skipn n X = bool_index data (eq_mask labels 1)
  /\ firstn n y = repeat 0%nat n
  /\ skipn n y = repeat 1%nat (length y - n).
Proof.
  intros Hlen X y n. subst n y X. unfold two_classes. cbn [fst snd].
  assert (Hm : forall k, length data = length (eq_mask labels k))
    by (intros k; unfold eq_mask; now rewrite length_map).
  assert (Hl : forall k, length labels = length (eq_mask labels k))
    by (intros k; unfold eq_mask; now rewrite length_map).
  set (n0 := np_sum_bool (eq_mask labels 0)).
  set (n1 := np_sum_bool (eq_mask labels 1)).
  assert (H0 : length (bool_index data (eq_mask labels 0)) = n0)
    by (apply bool_index_length, Hm).
  assert (H1 : length (bool_index data (eq_mask labels 1)) = n1)
    by (apply bool_index_length, Hm).
  rewrite !bool_index_own_label. fold n0 n1.
  rewrite num_zeros_blocks.
  split; [rewrite !length_app, !repeat_length; lia|].
  split; [rewrite <- H0; apply firstn_block|].
  split; [rewrite <- H0; apply skipn_block|].
  split.
  - rewrite <- (repeat_length 0%nat n0) at 1. apply firstn_block.
  - rewrite length_app, !repeat_length.
    replace (n0 + n1 - n0)%nat with n1 by lia.
    rewrite <- (repeat_length 0%nat n0) at 1. apply skipn_block.
Qed.

Lemma two_classes_split_witness :
  let X := fst (two_classes [10; 11; 12; 13; 14]%nat [1; 0; 7; 0; 1]%nat) in
  let y := snd (two_classes [10; 11; 12; 13; 14]%nat [1; 0; 7; 0; 1]%nat) in
  let n := num_zeros y in
  length X = length y
  /\ firstn n X
     = bool_index [10; 11; 12; 13; 14]%nat (eq_mask [1; 0; 7; 0; 1]%nat 0)
  /\ skipn n X
     = bool_index [10; 11; 12; 13; 14]%nat (eq_mask [1; 0; 7; 0; 1]%nat 1)
  /\ firstn n y = repeat 0%nat n
  /\ skipn n y = repeat 1%nat (length y - n).
Proof.
  apply (two_classes_split [10; 11; 12; 13; 14]%nat [1; 0; 7; 0; 1]%nat).
  reflexivity.
Defined.

(** * Properties over binary64 numbers

    The statements below hold for every choice [np] of numpy's reductions;
    the examples are evaluated with [F64.in_order]. *)

(** ** The order of binary64 numbers *)

Ltac sf_cmp :=
  repeat match goal with
    | |- context [Z.compare ?x ?y] =>
        destruct (Z.compare_spec x y)
    | H : context [Z.compare ?x ?y] |- _ =>
        destruct (Z.compare_spec x y)
    | |- context [Pos.compare_cont Eq ?x ?y] =>
        change (Pos.compare_cont Eq x y) with (Pos.compare x y);
        destruct (Pos.compare_spec x y)
    | H : context [Pos.compare_cont Eq ?x ?y] |- _ =>
        change (Pos.compare_cont Eq x y) with (Pos.compare x y) in H;
        destruct (Pos.compare_spec x y)
    end.

Lemma SFcompare_refl (a : SpecFloat.spec_float) :
  a <> SpecFloat.S754_nan -> SpecFloat.SFcompare a a = Some Eq.
Proof.
  destruct a as [s|s| |s m e]; simpl; intros H; try congruence.
  - now destruct s.
  - destruct s; rewrite Z.compare_refl;
      change (Pos.compare_cont Eq m m) with (Pos.compare m m);
      now rewrite Pos.compare_refl.
Qed.

Lemma SFcompare_antisym (a b : SpecFloat.spec_float) :
  SpecFloat.SFcompare b a = option_map CompOpp (SpecFloat.SFcompare a b).
Proof.
  destruct a as [sa|sa| |sa ma ea], b as [sb|sb| |sb mb eb]; simpl;
    try reflexivity; try (destruct sa; reflexivity);
    try (destruct sb; reflexivity);
    try (destruct sa, sb; reflexivity).
  destruct sa, sb; simpl; try reflexivity;
    rewrite (Z.compare_antisym ea eb);
    change (Pos.compare_cont Eq mb ma) with (Pos.compare mb ma);
    change (Pos.compare_cont Eq ma mb) with (Pos.compare ma mb);
    rewrite (Pos.compare_antisym ma mb);
    destruct (Z.compare ea eb); simpl; try reflexivity;
    destruct (Pos.compare ma mb); reflexivity.
Qed.

Lemma SFcompare_trans (a b c : SpecFloat.spec_float) (c1 c2 : comparison) :
  SpecFloat.SFcompare a b = Some c1 -> SpecFloat.SFcompare b c = Some c2 ->
  c1 <> Gt -> c2 <> Gt ->
  exists c3, SpecFloat.SFcompare a c = Some c3 /\ c3 <> Gt
             /\ (c1 = Lt \/ c2 = Lt -> c3 = Lt).
Proof.
  destruct a as [sa|sa| |sa ma ea], b as [sb|sb| |sb mb eb],
    c as [sc|sc| |sc mc ec]; simpl; intros H1 H2 N1 N2;
    try discriminate;
    injection H1 as H1; injection H2 as H2; subst c1 c2;
    try (destruct sa); try (destruct sb); try (destruct sc);
    simpl in *; try congruence;
    try (eexists; split; [reflexivity|]; split; [discriminate|];
         intros [?|?]; congruence);
    sf_cmp; subst; simpl in *; try lia; try congruence;
    try (eexists; split; [reflexivity|]; split; [discriminate|];
         intros [?|?]; congruence).
Qed.

Lemma f64_is_nan_false (x : F64.float) :
  PrimFloat.is_nan x = false <-> FloatOps.Prim2SF x <> SpecFloat.S754_nan.
Proof.
  unfold PrimFloat.is_nan. rewrite FloatAxioms.eqb_spec.
  unfold SpecFloat.SFeqb. split.
  - intros H Hn. rewrite Hn in H. discriminate.
  - intros H. now rewrite (SFcompare_refl _ H).
Qed.

Lemma f64_leb_refl (x : F64.float) :
  PrimFloat.is_nan x = false -> PrimFloat.leb x x = true.
Proof.
  intros H. apply f64_is_nan_false in H.
  rewrite FloatAxioms.leb_spec. unfold SpecFloat.SFleb.
  now rewrite (SFcompare_refl _ H).
Qed.

Lemma SFcompare_some (a b : SpecFloat.spec_float) :
  a <> SpecFloat.S754_nan -> b <> SpecFloat.S754_nan ->
  exists c, SpecFloat.SFcompare a b = Some c.
Proof.
  destruct a, b; simpl; intros Ha Hb; try congruence; eexists; reflexivity.
Qed.

Lemma f64_leb_total (x y : F64.float) :
  PrimFloat.is_nan x = false -> PrimFloat.is_nan y = false ->
  PrimFloat.leb x y = false -> PrimFloat.ltb y x = true.
Proof.
  intros Hx Hy. apply f64_is_nan_false in Hx. apply f64_is_nan_false in Hy.
  rewrite FloatAxioms.leb_spec, FloatAxioms.ltb_spec.
  unfold SpecFloat.SFleb, SpecFloat.SFltb.
  rewrite (SFcompare_antisym (FloatOps.Prim2SF x) (FloatOps.Prim2SF y)).
  destruct (SFcompare_some _ _ Hx Hy) as [c ->].
  destruct c; simpl; congruence.
Qed.

Lemma f64_ltb_leb (x y : F64.float) :
  PrimFloat.ltb x y = true -> PrimFloat.leb x y = true.
Proof.
  rewrite FloatAxioms.leb_spec, FloatAxioms.ltb_spec.
  unfold SpecFloat.SFleb, SpecFloat.SFltb.
  destruct (SpecFloat.SFcompare _ _) as [[| |]|]; congruence.
Qed.

Lemma f64_leb_trans (x y z : F64.float) :
  PrimFloat.leb x y = true -> PrimFloat.leb y z = true ->
  PrimFloat.leb x z = true.
Proof.
  rewrite !FloatAxioms.leb_spec. unfold SpecFloat.SFleb.
  destruct (SpecFloat.SFcompare (FloatOps.Prim2SF x) (FloatOps.Prim2SF y))
    as [c1|] eqn:E1; [|discriminate].
  destruct (SpecFloat.SFcompare (FloatOps.Prim2SF y) (FloatOps.Prim2SF z))
    as [c2|] eqn:E2; [|destruct c1; discriminate].
  intros H1 H2.
  destruct (SFcompare_trans _ _ _ c1 c2 E1 E2) as (c3 & -> & N3 & _);
    [destruct c1; congruence|destruct c2; congruence|].
  destruct c3; congruence.
Qed.

Lemma f64_ltb_leb_trans (x y z : F64.float) :
  PrimFloat.ltb x y = true -> PrimFloat.leb y z = true ->
  PrimFloat.ltb x z = true.
Proof.
  rewrite !FloatAxioms.leb_spec, !FloatAxioms.ltb_spec.
  unfold SpecFloat.SFleb, SpecFloat.SFltb.
  destruct (SpecFloat.SFcompare (FloatOps.Prim2SF x) (FloatOps.Prim2SF y))
    as [c1|] eqn:E1; [|discriminate].
  destruct (SpecFloat.SFcompare (FloatOps.Prim2SF y) (FloatOps.Prim2SF z))
    as [c2|] eqn:E2; [|destruct c1; discriminate].
  intros H1 H2.
  destruct (SFcompare_trans _ _ _ c1 c2 E1 E2) as (c3 & -> & N3 & HL);
    [destruct c1; congruence|destruct c2; congruence|].
  rewrite HL; [reflexivity|]. left. destruct c1; congruence.
Qed.

(** ** [np.argmin] on binary64 numbers *)

Lemma f64_argmin_scan_range (l : list F64.float) :
  forall (mp : F64.float) (mi i : nat),
    F64.argmin_scan mp mi i l = mi
    \/ (i <= F64.argmin_scan mp mi i l < i + length l)%nat.
Proof.
  induction l as [|x l IH]; intros mp mi i; simpl; [now left|].
  destruct (PrimFloat.is_nan mp); [now left|].
  destruct (negb (PrimFloat.leb mp x)).
  - destruct (IH x i (S i)) as [-> | H]; right; lia.
  - destruct (IH mp mi (S i)) as [-> | H]; [now left|right; lia].
Qed.

Lemma f64_argmin_lt (l : list F64.float) :
  l <> [] -> (F64.argmin l < length l)%nat.
Proof.
  destruct l as [|x l]; [congruence|]. intros _. simpl.
  destruct (f64_argmin_scan_range l x 0 1) as [-> | H]; lia.
Qed.

Lemma f64_argmin_scan_first_min (l : list F64.float) :
  Forall (fun x => PrimFloat.is_nan x = false) l ->
  forall (mp : F64.float) (mi i : nat),
    PrimFloat.is_nan mp = false ->
    (F64.argmin_scan mp mi i l = mi
     /\ forall p, (p < length l)%nat ->
                  PrimFloat.leb mp (nth p l F64.nan) = true)
    \/ (exists p, F64.argmin_scan mp mi i l = (i + p)%nat
          /\ (p < length l)%nat
          /\ PrimFloat.ltb (nth p l F64.nan) mp = true
          /\ (forall p', (p' < length l)%nat ->
                PrimFloat.leb (nth p l F64.nan) (nth p' l F64.nan) = true)
          /\ (forall p', (p' < p)%nat ->
                PrimFloat.ltb (nth p l F64.nan) (nth p' l F64.nan) = true)).
Proof.
  induction 1 as [|x l Hx Hl IH]; intros mp mi i Hmp.
  - left. split; [reflexivity|]. simpl. intros p Hp. lia.
  - cbn [F64.argmin_scan]. rewrite Hmp.
    destruct (PrimFloat.leb mp x) eqn:Hle; cbn [negb].
    + destruct (IH mp mi (S i) Hmp)
        as [[Hr Hall] | (p & Hr & Hp & Hlt & Hmin & Hfirst)].
      * left. split; [assumption|].
        intros [|p] Hp; simpl; [assumption|]. apply Hall. simpl in Hp. lia.
      * right. exists (S p). rewrite Hr. simpl.
        pose proof (f64_ltb_leb_trans _ _ _ Hlt Hle) as Hvx.
        split; [lia|]. split; [lia|]. split; [assumption|]. split.
        -- intros [|p'] Hp'; [now apply f64_ltb_leb|].
           apply Hmin. simpl in Hp'. lia.
        -- intros [|p'] Hp'; [assumption|]. apply Hfirst. lia.
    + pose proof (f64_leb_total _ _ Hmp Hx Hle) as Hxm.
      destruct (IH x i (S i) Hx)
        as [[Hr Hall] | (p & Hr & Hp & Hlt & Hmin & Hfirst)].
      * right. exists 0%nat. rewrite Hr. simpl.
        split; [lia|]. split; [lia|]. split; [assumption|]. split.
        -- intros [|p'] Hp'; [now apply f64_leb_refl|].
           apply Hall. simpl in Hp'. lia.
        -- intros p' Hp'. lia.
      * right. exists (S p). rewrite Hr. simpl.
        split; [lia|]. split; [lia|]. split.
        { apply (f64_ltb_leb_trans _ x); [assumption|now apply f64_ltb_leb]. }
        split.
        -- intros [|p'] Hp'; [now apply f64_ltb_leb|].
           apply Hmin. simpl in Hp'. lia.
        -- intros [|p'] Hp'; [assumption|]. apply Hfirst. lia.
Qed.

Lemma f64_argmin_first_min (l : list F64.float) :
  l <> [] -> Forall (fun x => PrimFloat.is_nan x = false) l ->
  let j := F64.argmin l in
  (j < length l)%nat
  /\ (forall p, (p < length l)%nat ->
        PrimFloat.leb (nth j l F64.nan) (nth p l F64.nan) = true)
  /\ (forall p, (p < j)%nat ->
        PrimFloat.ltb (nth j l F64.nan) (nth p l F64.nan) = true).
Proof.
  destruct l as [|x0 l]; [congruence|]. intros _ Hall.
  inversion Hall as [|? ? Hx0 Hl]; subst. cbn [F64.argmin].
  destruct (f64_argmin_scan_first_min l Hl x0 0 1 Hx0)
    as [[Hr Hmin] | (p & Hr & Hp & Hlt & Hmin & Hfirst)]; rewrite Hr; simpl.
  - split; [lia|]. split.
    + intros [|p] Hp; [now apply f64_leb_refl|]. apply Hmin. lia.
    + intros p Hp. lia.
  - split; [lia|]. split.
    + intros [|p'] Hp'; [now apply f64_ltb_leb|]. apply Hmin. lia.
    + intros [|p'] Hp'; [assumption|]. apply Hfirst. lia.
Qed.

(** ** [closest] on binary64 numbers *)

Lemma f64_mapM_Ok {A B : Type} (f : A -> result B) (g : A -> B)
    (l : list A) :
  (forall a, In a l -> f a = Ok (g a)) -> F64.mapM f l = Ok (map g l).
Proof.
  induction l as [|a l IH]; intros H; [reflexivity|].
  simpl. rewrite (H a) by now left. simpl.
  rewrite IH; [reflexivity|]. intros b Hb. apply H. now right.
Qed.

Lemma f64_mapM_length {A B : Type} (f : A -> result B) (l : list A) :
  forall bs, F64.mapM f l = Ok bs -> length bs = length l.
Proof.
  induction l as [|a l IH]; intros bs H; simpl in H.
  - injection H as <-. reflexivity.
  - destruct (f a) as [b|e]; simpl in H; [|discriminate].
    destruct (F64.mapM f l) as [bs'|e]; simpl in H; [|discriminate].
    injection H as <-. simpl. now rewrite (IH bs' eq_refl).
Qed.

Lemma f64_sub_rows_same (a b : F64.row) :
  length a = length b ->
  F64.sub_rows a b
  = Ok (map (fun p => PrimFloat.sub (fst p) (snd p)) (combine a b)).
Proof.
  intros H. unfold F64.sub_rows. now rewrite H, Nat.eqb_refl.
Qed.

Lemma f64_distances_eq (np : F64.reductions)
    (D : nat) (X centers : F64.matrix) :
  F64.has_cols D X -> F64.has_cols D centers ->
  F64.distances np X centers
  = Ok (map (fun c => map (fun x => F64.dist np x c) X) centers).
Proof.
  intros HX HC. unfold F64.distances.
  apply f64_mapM_Ok. intros c Hc. apply f64_mapM_Ok. intros x Hx.
  unfold F64.has_cols in HX, HC. rewrite Forall_forall in HX, HC.
  rewrite f64_sub_rows_same by now rewrite (HX x Hx), (HC c Hc).
  reflexivity.
Qed.

Lemma f64_closest_eq (np : F64.reductions) (D : nat) (X centers : F64.matrix) :
  centers <> [] -> F64.has_cols D X -> F64.has_cols D centers ->
  F64.closest np X centers
  = Ok (map (fun x => F64.argmin (map (fun c => F64.dist np x c) centers)) X).
Proof.
  intros Hne HX HC. unfold F64.closest.
  rewrite (f64_distances_eq np D X centers HX HC). cbn [bind].
  unfold F64.argmin_axis0.
  destruct (map (fun c => map (fun x => F64.dist np x c) X) centers)
    as [|r l] eqn:E.
  { apply map_eq_nil in E. congruence. }
  rewrite <- E. f_equal.
  rewrite <- (map_nth_seq
                (fun x => F64.argmin (map (fun c => F64.dist np x c) centers))
                X []).
  apply map_ext_in. intros i Hi. apply in_seq in Hi. f_equal.
  unfold F64.column. rewrite map_map. apply map_ext. intros c.
  apply (nth_map_lt (fun x => F64.dist np x c) X [] F64.nan i). lia.
Qed.

Lemma f64_closest_Ok_inv (np : F64.reductions)
    (X centers : F64.matrix) (c : list nat) :
  F64.closest np X centers = Ok c ->
  centers <> [] /\ length c = length X
  /\ Forall (fun j => (j < length centers)%nat) c.
Proof.
  unfold F64.closest. intros H.
  destruct (F64.distances np X centers) as [dist|e] eqn:Hd; [|discriminate].
  cbn [bind] in H. unfold F64.distances in Hd.
  pose proof (f64_mapM_length _ _ _ Hd) as Hlen.
  assert (Hdne : dist <> []) by (intros ->; discriminate).
  assert (Hc : c = map (fun i => F64.argmin (F64.column i dist))
                     (seq 0 (length X))).
  { destruct dist; [congruence|]. simpl in H. now injection H. }
  subst c.
  split; [intros ->; simpl in Hlen; destruct dist; [congruence|discriminate]|].
  split; [now rewrite length_map, length_seq|].
  apply Forall_map, Forall_forall. intros i _.
  rewrite <- Hlen. unfold F64.column.
  pose proof (f64_argmin_lt (map (fun r0 => nth i r0 F64.nan) dist)) as Hlt.
  rewrite length_map in Hlt. apply Hlt.
  destruct dist; [congruence|discriminate].
Qed.

(** C4 (as the code behaves): for M points and K >= 1 centers of the same
    dimension, [closest] returns M labels, each below K; when none of the
    computed distances of a point is a NaN, its label names a center whose
    computed distance is at most every computed distance of the point, and
    strictly below that of every center of lower index. *)
Theorem f64_closest_first_min (np : F64.reductions)
    (D : nat) (X centers : F64.matrix) :
  centers <> [] -> F64.has_cols D X -> F64.has_cols D centers ->
  exists c,
    F64.closest np X centers = Ok c
    /\ length c = length X
    /\ forall i, (i < length X)%nat ->
         let x := nth i X [] in
         let j := nth i c 0%nat in
         (j < length centers)%nat
         /\ ((forall j', (j' < length centers)%nat ->
                PrimFloat.is_nan (F64.dist np x (nth j' centers [])) = false) ->
             (forall j', (j' < length centers)%nat ->
                PrimFloat.leb (F64.dist np x (nth j centers []))
                              (F64.dist np x (nth j' centers [])) = true)
             /\ (forall j', (j' < j)%nat ->
                   PrimFloat.ltb (F64.dist np x (nth j centers []))
                                 (F64.dist np x (nth j' centers [])) = true)).
Proof.
  intros Hne HX HC.
  eexists. split; [exact (f64_closest_eq np D X centers Hne HX HC)|].
  split; [now rewrite length_map|].
  intros i Hi x j.
  set (ds := map (fun c => F64.dist np x c) centers).
  assert (Hj : j = F64.argmin ds).
  { subst j ds.
    now rewrite (nth_map_lt
                   (fun x => F64.argmin (map (fun c => F64.dist np x c) centers))
                   X [] 0%nat i Hi). }
  assert (Hds : ds <> []) by (subst ds; destruct centers; [congruence|discriminate]).
  assert (Hlen : length ds = length centers) by (subst ds; apply length_map).
  assert (Hnth : forall k, (k < length centers)%nat ->
                           nth k ds F64.nan = F64.dist np x (nth k centers [])).
  { intros k Hk. subst ds.
    apply (nth_map_lt (fun c => F64.dist np x c) centers [] F64.nan k Hk). }
  assert (Hjlt : (j < length centers)%nat).
  { rewrite Hj, <- Hlen. now apply f64_argmin_lt. }
  split; [assumption|]. intros Hnan.
  assert (Hall : Forall (fun d => PrimFloat.is_nan d = false) ds).
  { subst ds. apply Forall_map, Forall_forall. intros c Hc.
    destruct (In_nth _ _ [] Hc) as (k & Hk & <-). now apply Hnan. }
  destruct (f64_argmin_first_min ds Hds Hall) as (_ & Hmin & Hfirst).
  rewrite <- Hj in Hmin, Hfirst. rewrite Hlen in Hmin. split.
  - intros j' Hj'. specialize (Hmin j' Hj').
    now rewrite !Hnth in Hmin by assumption.
  - intros j' Hj'. specialize (Hfirst j' Hj').
    now rewrite !Hnth in Hfirst by lia.
Qed.

Lemma f64_closest_first_min_witness :
  exists c,
    F64.closest F64.in_order F_tie_X F_tie_C = Ok c
    /\ length c = length F_tie_X
    /\ forall i, (i < length F_tie_X)%nat ->
         let x := nth i F_tie_X [] in
         let j := nth i c 0%nat in
         (j < length F_tie_C)%nat
         /\ ((forall j', (j' < length F_tie_C)%nat ->
                PrimFloat.is_nan (F64.dist F64.in_order x (nth j' F_tie_C [])) = false) ->
             (forall j', (j' < length F_tie_C)%nat ->
                PrimFloat.leb (F64.dist F64.in_order x (nth j F_tie_C []))
                              (F64.dist F64.in_order x (nth j' F_tie_C [])) = true)
             /\ (forall j', (j' < j)%nat ->
                   PrimFloat.ltb (F64.dist F64.in_order x (nth j F_tie_C []))
                                 (F64.dist F64.in_order x (nth j' F_tie_C [])) = true)).
Proof.
  apply (f64_closest_first_min F64.in_order 2 F_tie_X F_tie_C).
  - discriminate.
  - repeat constructor.
  - repeat constructor.
Defined.

(** C4 fails as stated: for the point (0, 0) and the centers (1, 2^-30) and
    (1, 0), both computed distances are 1.0 (1 + 2^-60 rounds to 1), so the
    label is 0, although center 1 is strictly nearer: the squared distances
    are 1 + 2^-60 and 1. *)
Lemma f64_closest_not_nearest :
  F64.closest F64.in_order F_tie_X F_tie_C = Ok [0%nat]
  /\ F64.all_finite F_tie_X = true /\ F64.all_finite F_tie_C = true
  /\ Qsqdist (nth 0 (F64.values F_tie_X) []) (nth 1 (F64.values F_tie_C) [])
     < Qsqdist (nth 0 (F64.values F_tie_X) []) (nth 0 (F64.values F_tie_C) []).
Proof. repeat split; vm_compute; reflexivity. Qed.

(** ** The update on binary64 numbers *)

Lemma f64_new_centers_eq (np : F64.reductions)
    (X centers : F64.matrix) (c : list nat) :
  F64.closest np X centers = Ok c ->
  F64.new_centers np X centers
  = Ok (map (fun k => F64.mean_axis0 np (F64.ncols X)
                        (bool_index X (eq_mask c k)))
            (seq 0 (length (np_unique c)))).
Proof. intros H. unfold F64.new_centers. now rewrite H. Qed.

(** C5 (as the code behaves): when every index below K is populated,
    [new_centers] returns K rows, and coordinate d of row k is the mean, as
    numpy computes it (its binary64 sum divided by the count, rounded), of
    coordinate d over the points labelled k. *)
Theorem f64_new_centers_means (np : F64.reductions)
    (X centers : F64.matrix) (c : list nat) :
  F64.closest np X centers = Ok c ->
  populated (length centers) c ->
  exists m,
    F64.new_centers np X centers = Ok m
    /\ length m = length centers
    /\ forall k d, (k < length centers)%nat -> (d < F64.ncols X)%nat ->
         nth d (nth k m []) F64.nan
         = F64.mean np
             (map (fun i => nth d (nth i X []) F64.nan) (members c k)).
Proof.
  intros Hc Hpop.
  destruct (f64_closest_Ok_inv _ _ _ _ Hc) as (Hne & Hlen & Hr).
  pose proof (f64_new_centers_eq _ _ _ _ Hc) as Hm.
  assert (HK : length (np_unique c) = length centers)
    by now apply np_unique_length_populated.
  rewrite HK in Hm.
  eexists. split; [exact Hm|]. split; [now rewrite length_map, length_seq|].
  intros k d Hk Hd.
  rewrite (nth_map_lt
             (fun k => F64.mean_axis0 np (F64.ncols X)
                         (bool_index X (eq_mask c k)))
             (seq 0 (length centers)) 0%nat [] k)
    by now rewrite length_seq.
  rewrite seq_nth by assumption. cbn [Nat.add].
  unfold F64.mean_axis0.
  rewrite (nth_map_lt
             (fun d => F64.mean np (F64.column d (bool_index X (eq_mask c k))))
             (seq 0 (F64.ncols X)) 0%nat F64.nan d)
    by now rewrite length_seq.
  rewrite seq_nth by assumption. cbn [Nat.add].
  unfold F64.column.
  now rewrite (@bool_index_members F64.row [] X c k Hlen), map_map.
Qed.

Lemma f64_new_centers_means_witness :
  exists m,
    F64.new_centers F64.in_order F_four_X F_four_C = Ok m
    /\ length m = length F_four_C
    /\ forall k d, (k < length F_four_C)%nat -> (d < F64.ncols F_four_X)%nat ->
         nth d (nth k m []) F64.nan
         = F64.mean F64.in_order
             (map (fun i => nth d (nth i F_four_X []) F64.nan)
                  (members [0; 0; 1; 1]%nat k)).
Proof.
  apply (f64_new_centers_means F64.in_order F_four_X F_four_C [0; 0; 1; 1]%nat).
  - vm_compute. reflexivity.
  - intros k Hk. simpl in Hk.
    destruct k as [|[|k]]; simpl; [tauto|tauto|lia].
Defined.

(** C5 fails as stated: the points 3, 4, 4 form one populated cluster; the
    row returned is the binary64 number nearest to 11/3, which is not the
    arithmetic mean 11/3. *)
Lemma f64_mean_not_exact :
  F64.closest F64.in_order F_thirds_X F_thirds_C = Ok [0; 0; 0]%nat
  /\ F64.new_centers F64.in_order F_thirds_X F_thirds_C
     = Ok [[0x1.d555555555555p+1%float]]
  /\ F64.all_finite F_thirds_X = true
  /\ cluster_mean (F64.values F_thirds_X) [0; 0; 0]%nat 0 0 == 11 # 3
  /\ F64.value 0x1.d555555555555p+1%float
     < cluster_mean (F64.values F_thirds_X) [0; 0; 0]%nat 0 0.
Proof. repeat split; vm_compute; reflexivity. Qed.

(** ** The objective over the values of binary64 arrays *)





Lemma f64_new_centers_has_cols (np : F64.reductions)
    (X centers moved : F64.matrix) :
  F64.new_centers np X centers = Ok moved -> F64.has_cols (F64.ncols X) moved.
Proof.
  unfold F64.new_centers.
  destruct (F64.closest np X centers) as [c|e]; [|discriminate].
  simpl. intros H. injection H as <-.
  apply Forall_map, Forall_forall. intros k _.
  unfold F64.mean_axis0. now rewrite length_map, length_seq.
Qed.

Lemma f64_ncols_has_cols (D : nat) (X : F64.matrix) :
  X <> [] -> F64.has_cols D X -> F64.ncols X = D.
Proof.
  intros Hne H. destruct X as [|r X]; [congruence|]. now inversion H.
Qed.




(** ** Assigning again after an update that moved nothing *)

Lemma f64_argmin_scan_tie (d : F64.float) (l : list F64.float) :
  Forall (eq d) l -> forall i, F64.argmin_scan d 0 i l = 0%nat.
Proof.
  induction 1 as [|x t Hx Hl IH]; intros i; [reflexivity|].
  subst x. cbn [F64.argmin_scan].
  destruct (PrimFloat.is_nan d) eqn:Hn; [reflexivity|].
  rewrite (f64_leb_refl d Hn). cbn [negb]. apply IH.
Qed.

Lemma f64_closest_all_same (np : F64.reductions)
    (D : nat) (X centers : F64.matrix) (m0 : F64.row) :
  centers <> [] -> F64.has_cols D X -> F64.has_cols D centers ->
  Forall (eq m0) centers ->
  F64.closest np X centers = Ok (map (fun _ => 0%nat) X).
Proof.
  intros Hne HX HC Hall.
  rewrite (f64_closest_eq np D X centers Hne HX HC). f_equal.
  apply map_ext. intros x.
  destruct centers as [|c0 cs]; [congruence|].
  inversion Hall as [|? ? H0 Hcs]; subst. cbn [map F64.argmin].
  apply f64_argmin_scan_tie. apply Forall_map.
  eapply Forall_impl; [|exact Hcs]. intros c <-. reflexivity.
Qed.

Lemma combine_all_eq {A : Type} (l : list A) :
  forall l', length l = length l' ->
             Forall (fun p => fst p = snd p) (combine l l') -> l = l'.
Proof.
  induction l as [|a l IH]; intros [|b l'] Hlen H; try discriminate.
  - reflexivity.
  - simpl in H. inversion H as [|? ? Hab Hrest]; subst. simpl in Hab.
    subst b. f_equal. apply IH; [simpl in Hlen; lia|assumption].
Qed.

(** C9 (as the code behaves): on a non-empty dataset, if the update moved no
    center at all (every row of [moved] is the center it is paired with in
    [moved - centers]), then assigning to the updated centers gives the
    labels that assigning to the given centers gave. *)
Theorem f64_assign_idempotent_unmoved (np : F64.reductions) (D : nat)
    (X centers moved : F64.matrix) (ps : list (F64.row * F64.row)) :
  X <> [] -> F64.has_cols D X -> F64.has_cols D centers ->
  F64.new_centers np X centers = Ok moved ->
  F64.broadcast_rows moved centers = Ok ps ->
  Forall (fun p => fst p = snd p) ps ->
  exists c, F64.closest np X centers = Ok c /\ F64.closest np X moved = Ok c.
Proof.
  intros HXne HX HC Hnew Hps Hsame.
  destruct (F64.closest np X centers) as [c|e] eqn:Hc;
    [|unfold F64.new_centers in Hnew; rewrite Hc in Hnew; discriminate].
  exists c. split; [reflexivity|].
  destruct (f64_closest_Ok_inv _ _ _ _ Hc) as (Hne & Hlen & Hr).
  pose proof (f64_new_centers_has_cols _ _ _ _ Hnew) as HM.
  rewrite (f64_ncols_has_cols D X HXne HX) in HM.
  unfold F64.broadcast_rows in Hps.
  destruct (length moved =? length centers)%nat eqn:E1.
  - apply Nat.eqb_eq in E1. injection Hps as <-.
    now rewrite (combine_all_eq moved centers E1 Hsame).
  - destruct (length moved =? 1)%nat eqn:E2.
    + apply Nat.eqb_eq in E2. injection Hps as <-.
      destruct moved as [|m0 [|? ?]]; try discriminate. cbn [hd] in Hsame.
      assert (Hall : Forall (eq m0) centers).
      { rewrite Forall_map in Hsame. exact Hsame. }
      rewrite (f64_closest_all_same np D X [m0] m0);
        [|discriminate|assumption|assumption|repeat constructor].
      rewrite (f64_closest_all_same np D X centers m0 Hne HX HC Hall) in Hc.
      exact Hc.
    + destruct (length centers =? 1)%nat eqn:E3; [|discriminate].
      exfalso. apply Nat.eqb_eq in E3. rewrite E3 in Hr.
      rewrite (f64_new_centers_eq _ _ _ _ Hc) in Hnew. injection Hnew as <-.
      rewrite length_map, length_seq in E2.
      rewrite (np_unique_length_populated 1 c) in E2;
        [discriminate|assumption|].
      intros k Hk. destruct c as [|h c]; [destruct X; [congruence|discriminate]|].
      inversion Hr; subst. left. lia.
Qed.

Lemma f64_assign_idempotent_unmoved_witness :
  exists c, F64.closest F64.in_order F_four_X [[0%float; 1%float]; [10%float; 1%float]]
            = Ok c
            /\ F64.closest F64.in_order F_four_X [[0%float; 1%float]; [10%float; 1%float]]
               = Ok c.
Proof.
  apply (f64_assign_idempotent_unmoved F64.in_order 2 F_four_X
           [[0%float; 1%float]; [10%float; 1%float]]
           [[0%float; 1%float]; [10%float; 1%float]]
           [([0%float; 1%float], [0%float; 1%float]);
            ([10%float; 1%float], [10%float; 1%float])]).
  - discriminate.
  - repeat constructor.
  - repeat constructor.
  - vm_compute. reflexivity.
  - reflexivity.
  - repeat constructor.
Defined.

(** C9 fails as stated: with the points 2^-500, -(2^-500 + 2^-551), 2^-499
    and the centers 0, 2^-499, the update moves the first center to -2^-552;
    the square of that move underflows, so Delta is 0.0; yet the first
    point, which was at equal computed distance from both centers (label
    0), is now nearer to the second: the labels change from 0, 0, 1 to
    1, 0, 1. *)
Lemma f64_zero_Delta_changes_labels :
  F64.closest F64.in_order F_small_X F_small_C = Ok [0; 0; 1]%nat
  /\ F64.new_centers F64.in_order F_small_X F_small_C
     = Ok [[(-0x1p-552)%float]; [0x1p-499%float]]
  /\ F64.Delta F64.in_order [[(-0x1p-552)%float]; [0x1p-499%float]] F_small_C
     = Ok 0%float
  /\ F64.closest F64.in_order F_small_X [[(-0x1p-552)%float]; [0x1p-499%float]]
     = Ok [1; 0; 1]%nat.
Proof. repeat split; vm_compute; reflexivity. Qed.
